(** * Ordering and notification engine of the LoopBack life cycle and
    middleware registries

    Shallow embedding of
    - [LifeCycleObserverRegistry] (@loopback/core)
    - [MiddlewareRegistry] (@loopback/rest, middleware-registry.ts).

    JavaScript strings are sequences of UTF-16 code units, modelled as
    [list N]; [s] turns a Rocq string literal into such a sequence.  Tag
    maps are association lists from tag names to string tag values. *)

From Stdlib Require Import String Ascii.
From Stdlib Require Import List ZArith NArith Bool Lia.
From Stdlib Require Import Permutation Sorted.
Import ListNotations.
Open Scope Z_scope.

(** ** JavaScript strings *)

Definition jsstring := list N.

Definition s (x : string) : jsstring :=
  map (fun c => N.of_nat (nat_of_ascii c)) (list_ascii_of_string x).

Definition jsstr_eqb (a b : jsstring) : bool :=
  if list_eq_dec N.eq_dec a b then true else false.

(** [a < b] on strings (ECMAScript IsLessThan): a proper prefix is smaller,
    otherwise the first differing code unit decides. *)
Fixpoint js_lt (a b : jsstring) : bool :=
  match a, b with
  | [], [] => false
  | [], _ :: _ => true
  | _ :: _, [] => false
  | x :: a', y :: b' =>
      if (x <? y)%N then true else if (y <? x)%N then false else js_lt a' b'
  end.

(** [Array.prototype.indexOf] on an array of strings (strict equality). *)
Fixpoint indexOf (l : list jsstring) (x : jsstring) : Z :=
  match l with
  | [] => -1
  | y :: l' => if jsstr_eqb y x then 0
               else let i := indexOf l' x in if i =? -1 then -1 else i + 1
  end.

(** [Array.prototype.find] with a predicate. *)
Fixpoint find_first {A} (p : A -> bool) (l : list A) : option A :=
  match l with
  | [] => None
  | x :: l' => if p x then Some x else find_first p l'
  end.

(** ** Bindings (owned by @loopback/context) *)

Inductive BindingType := CONSTANT | DYNAMIC_VALUE | CLASS | PROVIDER | ALIAS.
Inductive BindingScope := TRANSIENT | CONTEXT | SINGLETON.

Record Binding := mkBinding {
  key : jsstring;
  btype : BindingType;
  scope : BindingScope;
  tagMap : list (jsstring * jsstring)
}.

(** [binding.tagMap[name]]: [None] is [undefined]. *)
Fixpoint tag_get (m : list (jsstring * jsstring)) (name : jsstring)
  : option jsstring :=
  match m with
  | [] => None
  | (k, v) :: m' => if jsstr_eqb k name then Some v else tag_get m' name
  end.

(** JavaScript truthiness of a possibly undefined string. *)
Definition truthy (v : option jsstring) : bool :=
  match v with Some (_ :: _) => true | _ => false end.

(** [v || ''] *)
Definition or_empty (v : option jsstring) : jsstring :=
  match v with
  | Some x => if truthy v then x else []
  | None => []
  end.

(** [v === x] for a possibly undefined tag value and a string. *)
Definition opt_str_eqb (v : option jsstring) (x : jsstring) : bool :=
  match v with Some y => jsstr_eqb y x | None => false end.

(** ** Shared grouping machinery

    [groupMap]: a JavaScript [Map] from group name to the array of bindings
    in that group; entries iterate in insertion order, so it is an
    association list with new keys appended at the end. *)

Definition GroupMap := list (jsstring * list Binding).

Fixpoint groupMap_get (m : GroupMap) (g : jsstring) : option (list Binding) :=
  match m with
  | [] => None
  | (k, bs) :: m' => if jsstr_eqb k g then Some bs else groupMap_get m' g
  end.

(** [bindingsInGroup.push(binding)]: the array stored in the map is the
    one that is pushed to, so the entry of [g] is extended in place. *)
Fixpoint groupMap_push (m : GroupMap) (g : jsstring) (b : Binding) : GroupMap :=
  match m with
  | [] => []
  | (k, bs) :: m' =>
      if jsstr_eqb k g then (k, bs ++ [b]) :: m' else (k, bs) :: groupMap_push m' g b
  end.

(** One iteration of the partition loop:
    {[
      let bindingsInGroup = groupMap.get(group);
      if (bindingsInGroup == null) {
        bindingsInGroup = [];
        groupMap.set(group, bindingsInGroup);
      }
      bindingsInGroup.push(binding);
    ]} *)
Definition groupMap_add (m : GroupMap) (g : jsstring) (b : Binding) : GroupMap :=
  match groupMap_get m g with
  | None => groupMap_push (m ++ [(g, [])]) g b
  | Some _ => groupMap_push m g b
  end.

(** [for (const binding of bindings) { const group = classify(binding); ... }] *)
Definition partition (classify : Binding -> jsstring) (bindings : list Binding)
  : GroupMap :=
  fold_left (fun m b => groupMap_add m (classify b) b) bindings [].

(** The comparator of both sorters, on the group (phase) names:
    {[
      const i1 = order.indexOf(g1);
      const i2 = order.indexOf(g2);
      if (i1 !== -1 || i2 !== -1) return i1 - i2;
      else return g1 < g2 ? -1 : g1 > g2 ? 1 : 0;
    ]} *)
Definition order_cmp (order : list jsstring) (g1 g2 : jsstring) : Z :=
  let i1 := indexOf order g1 in
  let i2 := indexOf order g2 in
  if negb (i1 =? -1) || negb (i2 =? -1) then i1 - i2
  else if js_lt g1 g2 then -1 else if js_lt g2 g1 then 1 else 0.

(** [Array.prototype.sort(cmp)], as a stable insertion sort.  The
    comparator is consistent on distinct names (see [order_cmp_antisym] and
    [before_trans] below) and the group names of a [Map] are
    distinct, so every correct sorting algorithm returns this result. *)
Fixpoint insert_by {A} (cmp : A -> A -> Z) (x : A) (l : list A) : list A :=
  match l with
  | [] => [x]
  | y :: l' => if cmp x y >? 0 then y :: insert_by cmp x l' else x :: y :: l'
  end.

Fixpoint sort_by {A} (cmp : A -> A -> Z) (l : list A) : list A :=
  match l with
  | [] => []
  | x :: l' => insert_by cmp x (sort_by cmp l')
  end.

(** The common shape of [sortObserverBindingsByGroup] and
    [sortMiddlewareBindingsByPhase]: partition, one record per map entry,
    sort by [order_cmp] on the names. *)
Definition sorter (G : Type) (mk : jsstring -> list Binding -> G)
  (name : G -> jsstring) (classify : Binding -> jsstring) (order : list jsstring)
  (bs : list Binding) : list G :=
  sort_by (fun g1 g2 => order_cmp order (name g1) (name g2))
          (map (fun e => mk (fst e) (snd e)) (partition classify bs)).

(** ** LifeCycleObserverRegistry: classification and sorting *)

Record LifeCycleObserverGroup := mkGroup {
  group : jsstring;
  bindings : list Binding
}.

Record LifeCycleObserverOptions := mkLifeCycleObserverOptions {
  groupsByOrder : list jsstring;
  parallel : option bool
}.

Section LifeCycle.

(** [CoreTags.LIFE_CYCLE_OBSERVER] and [CoreTags.LIFE_CYCLE_OBSERVER_GROUP]
    (the string constants of packages/core/src/keys.ts). *)
Variable LIFE_CYCLE_OBSERVER LIFE_CYCLE_OBSERVER_GROUP : jsstring.

(** [findObserverBindings]: the bindings of the context, in the order the
    context enumerates them, that are constants or singletons and carry
    the life cycle observer tag. *)
Definition findObserverBindings (ctx : list Binding) : list Binding :=
  filter (fun b =>
            (match btype b with CONSTANT => true | _ => false end
             || match scope b with SINGLETON => true | _ => false end)
            && match tag_get (tagMap b) LIFE_CYCLE_OBSERVER with
               | Some _ => true | None => false end)
         ctx.

(** [getObserverGroup] *)
Definition getObserverGroup (options : LifeCycleObserverOptions) (binding : Binding)
  : jsstring :=
  let group := tag_get (tagMap binding) LIFE_CYCLE_OBSERVER_GROUP in
  let group :=
    if negb (truthy group) then
      find_first (fun g => opt_str_eqb (tag_get (tagMap binding) g) g)
                 (groupsByOrder options)
    else group in
  or_empty group.

(** [sortObserverBindingsByGroup] *)
Definition sortObserverBindingsByGroup (options : LifeCycleObserverOptions)
  (bs : list Binding) : list LifeCycleObserverGroup :=
  let groupMap := partition (getObserverGroup options) bs in
  let groups := map (fun e => mkGroup (fst e) (snd e)) groupMap in
  sort_by (fun g1 g2 => order_cmp (groupsByOrder options) (group g1) (group g2))
          groups.

(** [getObserverGroupsByOrder] *)
Definition getObserverGroupsByOrder (options : LifeCycleObserverOptions)
  (ctx : list Binding) : list LifeCycleObserverGroup :=
  sortObserverBindingsByGroup options (findObserverBindings ctx).

(** ** LifeCycleObserverRegistry: notification

    Asynchronous code is modelled by completion times: a promise settles
    [d] time units after it was created, fulfilled or rejected with an
    error.  Awaiting an already settled promise takes no time. *)

Open Scope nat_scope.

(** Keys of [LifeCycleObserver]. *)
Inductive LifeCycleEvent :=
  ev_preStart | ev_start | ev_postStart | ev_preStop | ev_stop | ev_postStop.

Definition Error := jsstring.

Inductive Settled :=
| Fulfilled (d : nat)
| Rejected (d : nat) (e : Error).

Definition duration (r : Settled) : nat :=
  match r with Fulfilled d => d | Rejected d _ => d end.

(** The external context and the observers it resolves to:
    [resolve b] is [ctx.get(b.key)]; [method b e] is [observer[e]()] when
    [observer[e]] is a function and [None] when it is not. *)
Record Env := mkEnv {
  resolve : Binding -> Settled;
  method : Binding -> LifeCycleEvent -> option Settled
}.

Inductive Result := Ok | Err (e : Error).

(** [invokeObserver] *)
Definition invokeObserver (env : Env) (b : Binding) (event : LifeCycleEvent)
  : Settled :=
  match method env b event with
  | Some r => r
  | None => Fulfilled 0
  end.

(** The inner [notifyObserver(binding)] of [notifyObserverGroup]: resolve,
    then invoke. *)
Definition notifyObserver (env : Env) (event : LifeCycleEvent) (b : Binding)
  : Settled :=
  match resolve env b with
  | Rejected d x => Rejected d x
  | Fulfilled d1 =>
      match invokeObserver env b event with
      | Fulfilled d2 => Fulfilled (d1 + d2)
      | Rejected d2 x => Rejected (d1 + d2) x
      end
  end.

(** A group run: its result, the time it settles, and the settle time of
    every member notification that was started. *)
Record GroupRun := mkGroupRun {
  g_result : Result;
  g_end : nat;
  g_settles : list nat
}.

(** Sequential mode: [await notifyObserver(b)] for each member in turn;
    the first rejection is thrown out of the loop. *)
Fixpoint notify_sequential (env : Env) (event : LifeCycleEvent)
  (bs : list Binding) (t : nat) : GroupRun :=
  match bs with
  | [] => mkGroupRun Ok t []
  | b :: bs' =>
      match notifyObserver env event b with
      | Rejected d x => mkGroupRun (Err x) (t + d) [t + d]
      | Fulfilled d =>
          let r := notify_sequential env event bs' (t + d) in
          mkGroupRun (g_result r) (g_end r) ((t + d) :: g_settles r)
      end
  end.

(** [Promise.all]: rejects with the earliest rejection (the first member
    among simultaneous ones), otherwise fulfils when the last member is
    fulfilled.  The result is the delay and the outcome. *)
Fixpoint first_rejection (rs : list Settled) : option (nat * Error) :=
  match rs with
  | [] => None
  | Fulfilled _ :: rs' => first_rejection rs'
  | Rejected d x :: rs' =>
      match first_rejection rs' with
      | Some (d', x') => if (d' <? d)%nat then Some (d', x') else Some (d, x)
      | None => Some (d, x)
      end
  end.

Definition promise_all (rs : list Settled) : Result * nat :=
  match first_rejection rs with
  | Some (d, x) => (Err x, d)
  | None => (Ok, fold_right Nat.max 0%nat (map duration rs))
  end.

(** Parallel mode: every [notifyObserver(b)] is started at [t] and pushed
    to [notifiers]; then [await Promise.all(notifiers)]. *)
Definition notify_parallel (env : Env) (event : LifeCycleEvent)
  (bs : list Binding) (t : nat) : GroupRun :=
  let rs := map (notifyObserver env event) bs in
  let '(r, d) := promise_all rs in
  mkGroupRun r (t + d) (map (fun x => t + duration x)%nat rs).

(** [notifyObserverGroup] *)
Definition notifyObserverGroup (env : Env) (options : LifeCycleObserverOptions)
  (g : LifeCycleObserverGroup) (event : LifeCycleEvent) (t : nat) : GroupRun :=
  match parallel options with
  | Some true => notify_parallel env event (bindings g) t
  | _ => notify_sequential env event (bindings g) t
  end.

(** One call of [notifyObserverGroup] made by [notifyGroups]: the event,
    the group, and when the call began and settled. *)
Record Notification := mkNotification {
  n_event : LifeCycleEvent;
  n_group : LifeCycleObserverGroup;
  n_begin : nat;
  n_end : nat
}.

(** The inner loop of [notifyGroups]: [for (const g of groups) await
    this.notifyObserverGroup(g, event);] *)
Fixpoint notifyEvent (env : Env) (options : LifeCycleObserverOptions)
  (event : LifeCycleEvent) (groups : list LifeCycleObserverGroup) (t : nat)
  : Result * nat * list Notification :=
  match groups with
  | [] => (Ok, t, [])
  | g :: groups' =>
      let r := notifyObserverGroup env options g event t in
      let n := mkNotification event g t (g_end r) in
      match g_result r with
      | Err x => (Err x, g_end r, [n])
      | Ok =>
          let '(r', t', l) := notifyEvent env options event groups' (g_end r) in
          (r', t', n :: l)
      end
  end.

(** [notifyGroups]: [for (const event of events) { for (const g of groups)
    ... }] *)
Fixpoint notifyGroups (env : Env) (options : LifeCycleObserverOptions)
  (events : list LifeCycleEvent) (groups : list LifeCycleObserverGroup) (t : nat)
  : Result * nat * list Notification :=
  match events with
  | [] => (Ok, t, [])
  | e :: events' =>
      let '(r, t1, l1) := notifyEvent env options e groups t in
      match r with
      | Err x => (Err x, t1, l1)
      | Ok =>
          let '(r2, t2, l2) := notifyGroups env options events' groups t1 in
          (r2, t2, l1 ++ l2)
      end
  end.

Definition startEvents := [ev_preStart; ev_start; ev_postStart].
Definition stopEvents := [ev_preStop; ev_stop; ev_postStop].

(** [start()]: the groups are computed from the bindings of [ctx]. *)
Definition start (env : Env) (options : LifeCycleObserverOptions)
  (ctx : list Binding) (t : nat) : Result * nat * list Notification :=
  let groups := getObserverGroupsByOrder options ctx in
  notifyGroups env options startEvents groups t.

(** [stop()]: [this.getObserverGroupsByOrder().reverse()] *)
Definition stop (env : Env) (options : LifeCycleObserverOptions)
  (ctx : list Binding) (t : nat) : Result * nat * list Notification :=
  let groups := rev (getObserverGroupsByOrder options ctx) in
  notifyGroups env options stopEvents groups t.

Open Scope Z_scope.

End LifeCycle.

(** ** MiddlewareRegistry: classification and sorting *)

Record MiddlewarePhase := mkPhase {
  phase : jsstring;
  phase_bindings : list Binding
}.

Record MiddlewareOptions := mkMiddlewareOptions {
  phasesByOrder : list jsstring;
  mw_parallel : option bool
}.

(** [getMiddlewarePhase]: [binding.tagMap.phase || ''] *)
Definition getMiddlewarePhase (binding : Binding) : jsstring :=
  or_empty (tag_get (tagMap binding) (s "phase")).

(** [sortMiddlewareBindingsByPhase] *)
Definition sortMiddlewareBindingsByPhase (options : MiddlewareOptions)
  (bs : list Binding) : list MiddlewarePhase :=
  let phaseMap := partition getMiddlewarePhase bs in
  let phases := map (fun e => mkPhase (fst e) (snd e)) phaseMap in
  sort_by (fun p1 p2 => order_cmp (phasesByOrder options) (phase p1) (phase p2))
          phases.

(** [createExpressRouter].  A middleware handler is identified by a
    number; [mw_value b] is the value the view resolves [b] to ([None]: the
    resolution fails and [middlewareView.values()] rejects).  An express
    router is the list of its [use] calls in order; the root router holds
    one child router per phase. *)
Definition Handler := nat.

Inductive Mount :=
| UsePath (path : jsstring) (h : option Handler)
| Use (h : option Handler).

Definition Router := list (list Mount).

Definition binding_eq_dec (a b : Binding) : {a = b} + {a <> b}.
Proof.
  pose proof (list_eq_dec N.eq_dec) as Hs.
  assert (Hp : forall x y : jsstring * jsstring, {x = y} + {x <> y})
    by (intros; decide equality).
  pose proof (list_eq_dec Hp) as Hm.
  decide equality; decide equality.
Defined.

(** [bindings.indexOf(binding)] (strict equality on binding objects). *)
Fixpoint indexOfBinding (l : list Binding) (b : Binding) : Z :=
  match l with
  | [] => -1
  | y :: l' => if binding_eq_dec y b then 0
               else let i := indexOfBinding l' b in if i =? -1 then -1 else i + 1
  end.

(** [middleware[index]]: [undefined] out of range. *)
Definition js_at {A} (l : list A) (i : Z) : option A :=
  if i <? 0 then None else nth_error l (Z.to_nat i).

(** [await this.middlewareView.values()]: resolves every binding of the
    view, rejects if one fails. *)
Fixpoint view_values (mw_value : Binding -> option Handler) (l : list Binding)
  : option (list Handler) :=
  match l with
  | [] => Some []
  | b :: l' =>
      match mw_value b, view_values mw_value l' with
      | Some h, Some hs => Some (h :: hs)
      | _, _ => None
      end
  end.

Definition createExpressRouter (mw_value : Binding -> option Handler)
  (options : MiddlewareOptions) (view : list Binding) : option Router :=
  let phases := sortMiddlewareBindingsByPhase options view in
  match view_values mw_value view with
  | None => None
  | Some middleware =>
      let bindings := view in
      Some (map (fun p =>
             map (fun binding =>
                    let index := indexOfBinding bindings binding in
                    let path := tag_get (tagMap binding) (s "path") in
                    match path with
                    | Some pth => if truthy path then UsePath pth (js_at middleware index)
                                  else Use (js_at middleware index)
                    | None => Use (js_at middleware index)
                    end)
                 (phase_bindings p))
           phases)
  end.

(** ** Constructor defaults *)

(** [LifeCycleObserverRegistry]: [options] defaults to
    [{parallel: true, groupsByOrder: ['server']}] when nothing is injected. *)
Definition LifeCycleObserverRegistry_options
  (injected : option LifeCycleObserverOptions) : LifeCycleObserverOptions :=
  match injected with
  | Some o => o
  | None => mkLifeCycleObserverOptions [s "server"] (Some true)
  end.

(** [MiddlewareRegistry]: [options] defaults to
    [{parallel: false, phasesByOrder: []}] when nothing is injected. *)
Definition MiddlewareRegistry_options (injected : option MiddlewareOptions)
  : MiddlewareOptions :=
  match injected with
  | Some o => o
  | None => mkMiddlewareOptions [] (Some false)
  end.

(** [setGroupsByOrder(groups)]: [this.options.groupsByOrder = groups ||
    ['server']].  [None] stands for [null] or [undefined]; an array, even an
    empty one, is truthy and is kept. *)
Definition setGroupsByOrder (options : LifeCycleObserverOptions)
  (groups : option (list jsstring)) : LifeCycleObserverOptions :=
  mkLifeCycleObserverOptions
    (match groups with Some g => g | None => [s "server"] end)
    (parallel options).

(** [setPhasesByOrder(phases)]: [this.options.phasesByOrder = phases || []]. *)
Definition setPhasesByOrder (options : MiddlewareOptions)
  (phases : option (list jsstring)) : MiddlewareOptions :=
  mkMiddlewareOptions
    (match phases with Some p => p | None => [] end)
    (mw_parallel options).

(** Concrete inputs used below. *)
Local Open Scope string_scope.
Local Open Scope list_scope.
Definition LCO := s "lifeCycleObserver".
Definition LCO_GROUP := s "lifeCycleObserverGroup".

Definition obs (k : string) (tags : list (string * string)) : Binding :=
  mkBinding (s k) CLASS SINGLETON
            ((LCO, LCO) :: map (fun kv => (s (fst kv), s (snd kv))) tags).

Definition opts_server := mkLifeCycleObserverOptions [s "server"] (Some true).
Definition A_server := obs "A" [("lifeCycleObserverGroup", "server")].
Definition B_plain := obs "B" [].

Definition C_db := obs "C" [("lifeCycleObserverGroup", "db")].
Definition ctx_demo := [A_server; B_plain; C_db].
Definition opts_db_server := mkLifeCycleObserverOptions [s "db"; s "server"] (Some true).

(** Every observer resolves after 1 and handles every event after 2. *)
Definition env_ok : Env := mkEnv (fun _ => Fulfilled 1) (fun _ _ => Some (Fulfilled 2)).

(** Observer [A] rejects every event after 1; every other one handles it
    after 5. *)
Definition env_A_fails : Env :=
  mkEnv (fun _ => Fulfilled 0)
        (fun b _ => if jsstr_eqb (key b) (s "A") then Some (Rejected 1 (s "boom"))
                    else Some (Fulfilled 5)).

Definition D_server := obs "D" [("lifeCycleObserverGroup", "server")].
Definition ctx_AD := [A_server; D_server].

(** An observer whose explicit group tag is the empty string and which also
    carries the marker tag [server]. *)
Definition E_empty_group :=
  obs "E" [("lifeCycleObserverGroup", ""); ("server", "server")].

(** A middleware binding with a marker tag [auth] and no [phase] tag. *)
Definition M_auth : Binding :=
  mkBinding (s "M") CLASS SINGLETON
            [(s "middleware", s "middleware"); (s "auth", s "auth")].
Definition mw_opts_auth := mkMiddlewareOptions [s "auth"] (Some false).

Definition demo_groups := getObserverGroupsByOrder LCO LCO_GROUP opts_db_server ctx_demo.
Definition demo_start := start LCO LCO_GROUP env_ok opts_db_server ctx_demo 0.
Definition demo_stop := stop LCO LCO_GROUP env_ok opts_db_server ctx_demo 0.
Definition group_AD := mkGroup (s "server") [A_server; D_server].

(** Every observer resolves after 1, handles [stop] by rejecting after 1
    and every other event after 2. *)
Definition env_stop_fails : Env :=
  mkEnv (fun _ => Fulfilled 1%nat)
        (fun _ e => match e with
                    | ev_stop => Some (Rejected 1%nat (s "halt"))
                    | _ => Some (Fulfilled 2%nat)
                    end).
Definition halting_start := start LCO LCO_GROUP env_stop_fails opts_db_server ctx_demo 0.


Definition ctx_demo_rev := [C_db; B_plain; A_server].
Definition opts_sequential := mkLifeCycleObserverOptions [s "server"] (Some false).
Definition group_DAB := mkGroup (s "server") [D_server; A_server; B_plain].

(** Every observer resolves after 3 and has no life cycle method. *)
Definition env_no_methods : Env := mkEnv (fun _ => Fulfilled 3%nat) (fun _ _ => None).

(** A class binding tagged as an observer but in transient scope. *)
Definition T_transient : Binding := mkBinding (s "T") CLASS TRANSIENT [(LCO, LCO)].
Definition ctx_transient := [T_transient].

(** A middleware binding in phase [route], mounted at [/api]. *)
Definition M_api : Binding :=
  mkBinding (s "N") CLASS SINGLETON
            [(s "middleware", s "middleware"); (s "phase", s "route"); (s "path", s "/api")].
Definition mw_view_demo := [M_auth; M_api].
Definition mw_value_demo (b : Binding) : option Handler :=
  if jsstr_eqb (key b) (s "M") then Some 1%nat else Some 2%nat.

Example scenario_db_server :
  map group (getObserverGroupsByOrder LCO LCO_GROUP
               (mkLifeCycleObserverOptions [s "db"; s "server"] (Some true))
               [obs "A" [("lifeCycleObserverGroup", "db")];
                obs "B" [("lifeCycleObserverGroup", "server")];
                obs "C" []])
  = [s ""; s "db"; s "server"].
Proof. reflexivity. Qed.

(** ** Specification vocabulary *)

(** The order the group sort produces on group names: names absent from
    [order] first, alphabetically; then names present in [order], by
    ascending index. *)
Definition before (order : list jsstring) (a b : jsstring) : Prop :=
  let i := indexOf order a in
  let j := indexOf order b in
  (i = -1 /\ j = -1 /\ js_lt a b = true)
  \/ (i = -1 /\ j <> -1)
  \/ (i <> -1 /\ j <> -1 /\ i < j).

(** The (event, group) calls of [notifyObserverGroup] that a full run of
    [notifyGroups events groups] makes: event-major. *)
Definition visits (events : list LifeCycleEvent)
  (groups : list LifeCycleObserverGroup)
  : list (LifeCycleEvent * LifeCycleObserverGroup) :=
  flat_map (fun e => map (fun g => (e, g)) groups) events.

Definition proj (l : list Notification)
  : list (LifeCycleEvent * LifeCycleObserverGroup) :=
  map (fun n => (n_event n, n_group n)) l.

(** Each group notification begins when the previous one has settled. *)
Fixpoint chain (t : nat) (l : list Notification) (t' : nat) : Prop :=
  match l with
  | [] => t = t'
  | n :: l' => n_begin n = t /\ (t <= n_end n)%nat /\ chain (n_end n) l' t'
  end.

(** The group run that a logged notification stands for. *)
Definition ran (env : Env) (options : LifeCycleObserverOptions) (n : Notification)
  : GroupRun :=
  notifyObserverGroup env options (n_group n) (n_event n) (n_begin n).

Definition member_ok (env : Env) (e : LifeCycleEvent) (b : Binding) : Prop :=
  exists d, notifyObserver env e b = Fulfilled d.

Definition event_eqb (a b : LifeCycleEvent) : bool :=
  match a, b with
  | ev_preStart, ev_preStart | ev_start, ev_start | ev_postStart, ev_postStart
  | ev_preStop, ev_preStop | ev_stop, ev_stop | ev_postStop, ev_postStop => true
  | _, _ => false
  end.

(** The groups notified of event [e], in call order. *)
Definition groups_for (e : LifeCycleEvent)
  (pl : list (LifeCycleEvent * LifeCycleObserverGroup)) : list LifeCycleObserverGroup :=
  map snd (filter (fun p => event_eqb (fst p) e) pl).

(** The handles of [p] that [classify] puts in group [g], in order. *)
Definition members (classify : Binding -> jsstring) (p : list Binding) (g : jsstring)
  : list Binding :=
  filter (fun b => jsstr_eqb (classify b) g) p.

(** The invariant of the partition loop after the handles [p]. *)
Definition part_inv (classify : Binding -> jsstring) (p : list Binding) (m : GroupMap)
  : Prop :=
  NoDup (map fst m)
  /\ (forall g l, In (g, l) m -> l = members classify p g)
  /\ (forall g, In g (map fst m) <-> exists b, In b p /\ classify b = g).

(** A logged group notification that succeeded. *)
Definition run_ok (env : Env) (options : LifeCycleObserverOptions) (n : Notification)
  : Prop :=
  g_result (ran env options n) = Ok.

(** The mount a middleware binding gets in its phase router. *)
Definition mount_of (mw_value : Binding -> option Handler) (b : Binding) : Mount :=
  match tag_get (tagMap b) (s "path") with
  | Some ((_ :: _) as pth) => UsePath pth (mw_value b)
  | _ => Use (mw_value b)
  end.

(** ** Properties of the string order and of [indexOf] *)

Lemma jsstr_eqb_spec (a b : jsstring) : jsstr_eqb a b = true <-> a = b.
Proof. unfold jsstr_eqb; destruct (list_eq_dec N.eq_dec a b); split; congruence. Qed.

Lemma jsstr_eqb_refl (a : jsstring) : jsstr_eqb a a = true.
Proof. apply jsstr_eqb_spec; reflexivity. Qed.

Lemma jsstr_eqb_neq (a b : jsstring) : a <> b -> jsstr_eqb a b = false.
Proof. intros H; destruct (jsstr_eqb a b) eqn:E; auto; apply jsstr_eqb_spec in E; congruence. Qed.

Lemma js_lt_irrefl (a : jsstring) : js_lt a a = false.
Proof. induction a as [|x a IH]; simpl; auto; rewrite N.ltb_irrefl; auto. Qed.

Lemma js_lt_trans (a b c : jsstring) :
  js_lt a b = true -> js_lt b c = true -> js_lt a c = true.
Proof.
  revert b c; induction a as [|x a IH]; intros [|y b] [|z c]; simpl; auto;
    try discriminate.
  destruct (N.ltb_spec x y), (N.ltb_spec y x), (N.ltb_spec y z), (N.ltb_spec z y),
    (N.ltb_spec x z), (N.ltb_spec z x); try lia; auto; try discriminate.
  assert (x = y) by lia; assert (y = z) by lia; subst; apply IH.
Qed.

Lemma js_lt_total (a b : jsstring) :
  a <> b -> js_lt a b = true \/ js_lt b a = true.
Proof.
  revert b; induction a as [|x a IH]; intros [|y b] Hne; simpl; auto;
    try congruence.
  destruct (N.ltb_spec x y), (N.ltb_spec y x); auto; try lia.
  assert (x = y) by lia; subst; apply IH; congruence.
Qed.

Lemma js_lt_asym (a b : jsstring) : js_lt a b = true -> js_lt b a = false.
Proof.
  intros H; destruct (js_lt b a) eqn:E; auto.
  pose proof (js_lt_trans _ _ _ H E); rewrite js_lt_irrefl in *; discriminate.
Qed.

Lemma indexOf_range (l : list jsstring) (x : jsstring) :
  indexOf l x = -1 \/ 0 <= indexOf l x.
Proof.
  induction l as [|y l IH]; simpl; auto.
  destruct (jsstr_eqb y x); [right; lia|].
  destruct (Z.eqb_spec (indexOf l x) (-1)); auto; right; lia.
Qed.

Lemma indexOf_nth (l : list jsstring) (x : jsstring) :
  indexOf l x <> -1 -> nth_error l (Z.to_nat (indexOf l x)) = Some x.
Proof.
  induction l as [|y l IH]; simpl; intros H; [congruence|].
  destruct (jsstr_eqb y x) eqn:E.
  - apply jsstr_eqb_spec in E; subst; reflexivity.
  - destruct (Z.eqb_spec (indexOf l x) (-1)) as [He|He]; [congruence|].
    pose proof (indexOf_range l x) as [R|R]; [congruence|].
    replace (Z.to_nat (indexOf l x + 1)) with (S (Z.to_nat (indexOf l x))) by lia.
    simpl; auto.
Qed.

Lemma indexOf_inj (l : list jsstring) (x y : jsstring) :
  indexOf l x <> -1 -> indexOf l x = indexOf l y -> x = y.
Proof.
  intros Hx Hxy; pose proof (indexOf_nth l x Hx) as A.
  assert (Hy : indexOf l y <> -1) by congruence.
  pose proof (indexOf_nth l y Hy) as B; rewrite <- Hxy in B; congruence.
Qed.

Lemma indexOf_In (l : list jsstring) (x : jsstring) :
  indexOf l x <> -1 <-> In x l.
Proof.
  induction l as [|y l IH]; simpl; [split; [congruence|tauto]|].
  destruct (jsstr_eqb y x) eqn:E.
  - apply jsstr_eqb_spec in E; split; auto; lia.
  - assert (y <> x) by (intro; subst; rewrite jsstr_eqb_refl in E; discriminate).
    destruct (Z.eqb_spec (indexOf l x) (-1)); split; intros H'.
    + congruence.
    + exfalso; destruct H' as [H'|H']; [congruence|]; apply IH in H'; congruence.
    + right; apply IH; auto.
    + pose proof (indexOf_range l x); lia.
Qed.

(** ** The comparator and the sort *)

Lemma order_cmp_distinct_nonzero (o : list jsstring) (a b : jsstring) :
  a <> b -> order_cmp o a b <> 0.
Proof.
  intros Hab; unfold order_cmp.
  pose proof (indexOf_range o a); pose proof (indexOf_range o b).
  destruct (Z.eqb_spec (indexOf o a) (-1)), (Z.eqb_spec (indexOf o b) (-1));
    simpl; try lia.
  - destruct (js_lt a b) eqn:E1; [lia|]; destruct (js_lt b a) eqn:E2; [lia|].
    destruct (js_lt_total a b Hab); congruence.
  - intro; apply Hab; apply (indexOf_inj o); lia.
Qed.

Lemma order_cmp_neg_before (o : list jsstring) (a b : jsstring) :
  order_cmp o a b < 0 -> before o a b.
Proof.
  unfold order_cmp, before.
  pose proof (indexOf_range o a); pose proof (indexOf_range o b).
  destruct (Z.eqb_spec (indexOf o a) (-1)), (Z.eqb_spec (indexOf o b) (-1));
    simpl; intros H'; try lia.
  destruct (js_lt a b) eqn:E1; [auto|]; destruct (js_lt b a); lia.
Qed.

Lemma order_cmp_antisym (o : list jsstring) (a b : jsstring) :
  order_cmp o a b > 0 -> order_cmp o b a < 0.
Proof.
  unfold order_cmp.
  destruct (Z.eqb_spec (indexOf o a) (-1)), (Z.eqb_spec (indexOf o b) (-1));
    simpl; intros H'; try lia.
  destruct (js_lt a b) eqn:E1; [lia|]; destruct (js_lt b a); lia.
Qed.

Lemma before_trans (o : list jsstring) (a b c : jsstring) :
  before o a b -> before o b c -> before o a c.
Proof.
  unfold before.
  intros [(A1 & A2 & A3)|[(A1 & A2)|(A1 & A2 & A3)]]
         [(B1 & B2 & B3)|[(B1 & B2)|(B1 & B2 & B3)]]; try lia.
  all: try (left; repeat split; auto; eapply js_lt_trans; eauto; fail).
  all: try (right; left; split; auto; lia).
  all: right; right; lia.
Qed.

Lemma order_cmp_sort_cases (o : list jsstring) (a b : jsstring) :
  a <> b -> ((order_cmp o a b >? 0) = true /\ before o b a)
            \/ ((order_cmp o a b >? 0) = false /\ before o a b).
Proof.
  intros Hab; pose proof (order_cmp_distinct_nonzero o a b Hab).
  destruct (Z.gtb_spec (order_cmp o a b) 0).
  - left; split; auto; apply order_cmp_neg_before, order_cmp_antisym; lia.
  - right; split; auto; apply order_cmp_neg_before; lia.
Qed.

Section SortBy.

Variable A : Type.
Variable name : A -> jsstring.
Variable order : list jsstring.

Let cmp (x y : A) : Z := order_cmp order (name x) (name y).
Let R (x y : A) : Prop := before order (name x) (name y).

Lemma insert_by_perm (x : A) (l : list A) : Permutation (x :: l) (insert_by cmp x l).
Proof.
  induction l as [|y l IH]; simpl; [auto|].
  destruct (cmp x y >? 0); [|auto].
  eapply perm_trans; [apply perm_swap|]; auto.
Qed.

Lemma sort_by_perm (l : list A) : Permutation l (sort_by cmp l).
Proof.
  induction l as [|x l IH]; simpl; [auto|].
  eapply perm_trans; [apply perm_skip, IH|apply insert_by_perm].
Qed.

Lemma insert_by_sorted (x : A) (l : list A) :
  ~ In (name x) (map name l) -> StronglySorted R l ->
  StronglySorted R (insert_by cmp x l).
Proof.
  induction l as [|y l IH]; simpl; intros Hn Hs.
  - repeat constructor.
  - apply StronglySorted_inv in Hs as [Hs Hy].
    assert (Hxy : name x <> name y) by auto.
    destruct (order_cmp_sort_cases order _ _ Hxy) as [[E B]|[E B]];
      unfold cmp; rewrite E.
    + constructor; [apply IH; auto|].
      eapply Permutation_Forall; [apply insert_by_perm|]; constructor; auto.
    + constructor; [constructor; auto|].
      constructor; auto.
      eapply Forall_impl; [|exact Hy]; intros z Hz; eapply before_trans; eauto.
Qed.

Lemma sort_by_sorted (l : list A) :
  NoDup (map name l) -> StronglySorted R (sort_by cmp l).
Proof.
  induction l as [|x l IH]; simpl; intros Hd; [constructor|].
  inversion Hd as [|? ? Hn Hd']; subst.
  apply insert_by_sorted; auto.
  intro Hin; apply Hn.
  eapply Permutation_in; [symmetry; apply Permutation_map, sort_by_perm|]; auto.
Qed.

End SortBy.

(** ** The partition step *)

Lemma groupMap_get_None (m : GroupMap) (g : jsstring) :
  groupMap_get m g = None <-> ~ In g (map fst m).
Proof.
  induction m as [|[k bs] m IH]; simpl; [tauto|].
  destruct (jsstr_eqb k g) eqn:E.
  - apply jsstr_eqb_spec in E; subst; split; [discriminate|tauto].
  - assert (k <> g) by (intro; subst; rewrite jsstr_eqb_refl in E; discriminate).
    rewrite IH; tauto.
Qed.

Lemma groupMap_push_keys (m : GroupMap) (g : jsstring) (b : Binding) :
  map fst (groupMap_push m g b) = map fst m.
Proof.
  induction m as [|[k bs] m IH]; simpl; auto.
  destruct (jsstr_eqb k g); simpl; congruence.
Qed.

Lemma groupMap_push_app_new (m : GroupMap) (g : jsstring) (l : list Binding)
  (b : Binding) :
  ~ In g (map fst m) -> groupMap_push (m ++ [(g, l)]) g b = m ++ [(g, l ++ [b])].
Proof.
  induction m as [|[k bs] m IH]; simpl; intros Hn.
  - rewrite jsstr_eqb_refl; reflexivity.
  - rewrite jsstr_eqb_neq by auto; rewrite IH; auto.
Qed.

Lemma groupMap_push_In (m : GroupMap) (g k : jsstring) (l' : list Binding)
  (b : Binding) :
  NoDup (map fst m) -> In (k, l') (groupMap_push m g b) ->
  (k <> g /\ In (k, l') m) \/ (k = g /\ exists l, In (g, l) m /\ l' = l ++ [b]).
Proof.
  induction m as [|[k0 bs] m IH]; simpl; intros Hd Hin; [contradiction|].
  inversion Hd as [|? ? Hn Hd']; subst.
  destruct (jsstr_eqb k0 g) eqn:E.
  - apply jsstr_eqb_spec in E; subst.
    destruct Hin as [Heq|Hin].
    + injection Heq as <- <-; right; eauto.
    + left; split; auto; intros ->; apply Hn; apply (in_map fst) in Hin; auto.
  - assert (k0 <> g) by (intro; subst; rewrite jsstr_eqb_refl in E; discriminate).
    destruct Hin as [Heq|Hin].
    + injection Heq as <- <-; left; auto.
    + destruct (IH Hd' Hin) as [[? ?]|[? [l [? ?]]]]; [left; auto|right; eauto].
Qed.

Lemma filter_none {X} (f : X -> bool) (l : list X) :
  (forall x, In x l -> f x = false) -> filter f l = [].
Proof.
  induction l as [|x l IH]; simpl; intros H; auto.
  rewrite H by auto; apply IH; auto.
Qed.

Section Partition.

Variable classify : Binding -> jsstring.

Lemma members_snoc (p : list Binding) (b : Binding) (g : jsstring) :
  members classify (p ++ [b]) g
  = members classify p g ++ (if jsstr_eqb (classify b) g then [b] else []).
Proof. unfold members; rewrite filter_app; reflexivity. Qed.

Lemma part_inv_step (p : list Binding) (m : GroupMap) (b : Binding) :
  part_inv classify p m -> part_inv classify (p ++ [b]) (groupMap_add m (classify b) b).
Proof.
  intros (Hd & Hl & Hk); unfold groupMap_add.
  destruct (groupMap_get m (classify b)) eqn:G.
  - assert (Hc : In (classify b) (map fst m))
      by (destruct (in_dec (list_eq_dec N.eq_dec) (classify b) (map fst m))
            as [|Hn]; [auto|apply groupMap_get_None in Hn; congruence]).
    repeat split.
    + rewrite groupMap_push_keys; auto.
    + intros g l' Hin.
      destruct (groupMap_push_In _ _ _ _ _ Hd Hin) as [[Hne Hin']|[-> [l0 [Hin' ->]]]].
      * rewrite members_snoc, jsstr_eqb_neq, app_nil_r by auto; auto.
      * rewrite members_snoc, jsstr_eqb_refl; f_equal; auto.
    + rewrite groupMap_push_keys; intros Hg; apply Hk in Hg as [b' [? ?]].
      exists b'; split; auto; apply in_or_app; auto.
    + rewrite groupMap_push_keys; intros [b' [Hin Hg]].
      apply in_app_or in Hin as [Hin|[<-|[]]]; [apply Hk; eauto|subst; auto].
  - apply groupMap_get_None in G.
    rewrite groupMap_push_app_new by auto; simpl.
    repeat split.
    + rewrite map_app; simpl; apply NoDup_app; auto.
      * repeat constructor; auto.
      * intros x Hx [<-|[]]; auto.
    + intros g l' Hin; apply in_app_or in Hin as [Hin|[Heq|[]]].
      * assert (classify b <> g)
          by (intros <-; apply G; apply (in_map fst) in Hin; auto).
        rewrite members_snoc, jsstr_eqb_neq, app_nil_r by auto; auto.
      * injection Heq as <- <-.
        rewrite members_snoc, jsstr_eqb_refl; simpl.
        unfold members; rewrite filter_none; auto.
        intros x Hx; apply jsstr_eqb_neq; intros Hcx; apply G; apply Hk; eauto.
    + rewrite map_app; intros Hg; apply in_app_or in Hg as [Hg|[<-|[]]].
      * apply Hk in Hg as [b' [? ?]]; exists b'; split; auto; apply in_or_app; auto.
      * exists b; split; auto; apply in_or_app; simpl; auto.
    + rewrite map_app; intros [b' [Hin Hg]]; apply in_or_app.
      apply in_app_or in Hin as [Hin|[<-|[]]]; [left; apply Hk; eauto|].
      right; left; auto.
Qed.

Lemma part_inv_fold (bs p : list Binding) (m : GroupMap) :
  part_inv classify p m ->
  part_inv classify (p ++ bs) (fold_left (fun m b => groupMap_add m (classify b) b) bs m).
Proof.
  revert p m; induction bs as [|b bs IH]; simpl; intros p m H.
  - rewrite app_nil_r; auto.
  - replace (p ++ b :: bs) with ((p ++ [b]) ++ bs) by (rewrite <- app_assoc; auto).
    apply IH, part_inv_step, H.
Qed.

Lemma partition_spec (bs : list Binding) : part_inv classify bs (partition classify bs).
Proof.
  apply (part_inv_fold bs []).
  repeat split; simpl; try constructor; try tauto.
  intros [? [[] _]].
Qed.

End Partition.

Lemma NoDup_map_inj {X Y} (f : X -> Y) (l : list X) (x y : X) :
  NoDup (map f l) -> In x l -> In y l -> f x = f y -> x = y.
Proof.
  induction l as [|z l IH]; simpl; intros Hd Hx Hy Hf; [contradiction|].
  inversion Hd as [|? ? Hn Hd']; subst.
  destruct Hx as [<-|Hx], Hy as [<-|Hy]; auto.
  - exfalso; apply Hn; rewrite Hf; apply in_map; auto.
  - exfalso; apply Hn; rewrite <- Hf; apply in_map; auto.
Qed.

(** Both sorters, stated once for a group record with a name and a member
    list. *)
Section Sorter.

Variable G : Type.
Variable mk : jsstring -> list Binding -> G.
Variable name : G -> jsstring.
Variable members_of : G -> list Binding.
Hypothesis name_mk : forall g l, name (mk g l) = g.
Hypothesis members_mk : forall g l, members_of (mk g l) = l.
Variable classify : Binding -> jsstring.
Variable order : list jsstring.

Lemma sorter_names_nodup_in (bs : list Binding) :
  NoDup (map name (map (fun e => mk (fst e) (snd e)) (partition classify bs))).
Proof.
  rewrite map_map; erewrite map_ext by (intros; apply name_mk).
  apply (partition_spec classify bs).
Qed.

Lemma sorter_perm (bs : list Binding) :
  Permutation (map (fun e => mk (fst e) (snd e)) (partition classify bs)) (sorter G mk name classify order bs).
Proof. apply (sort_by_perm G name order). Qed.

Lemma sorter_sorted (bs : list Binding) :
  StronglySorted (fun g1 g2 => before order (name g1) (name g2)) (sorter G mk name classify order bs).
Proof. apply (sort_by_sorted G name order), sorter_names_nodup_in. Qed.

Lemma sorter_partition (bs : list Binding) :
  let gs := sorter G mk name classify order bs in
  NoDup (map name gs)
  /\ (forall g, In g gs ->
        members_of g = filter (fun b => jsstr_eqb (classify b) (name g)) bs)
  /\ (forall b, In b bs -> exists g, In g gs /\ name g = classify b)
  /\ (forall b g1 g2, In g1 gs -> In g2 gs ->
        In b (members_of g1) -> In b (members_of g2) -> g1 = g2).
Proof.
  intros gs.
  pose proof (partition_spec classify bs) as (Hd & Hl & Hk).
  pose proof (sorter_perm bs) as Hp.
  assert (Hnd : NoDup (map name gs)).
  { eapply Permutation_NoDup; [apply Permutation_map, Hp|].
    apply sorter_names_nodup_in. }
  assert (Hmem : forall g, In g gs ->
            members_of g = filter (fun b => jsstr_eqb (classify b) (name g)) bs).
  { intros g Hg; apply (Permutation_in _ (Permutation_sym Hp)) in Hg.
    apply in_map_iff in Hg as [[k l] [<- Hin]]; simpl.
    rewrite members_mk, name_mk; apply Hl; auto. }
  repeat split; auto.
  - intros b Hb.
    assert (Hc : In (classify b) (map fst (partition classify bs))) by (apply Hk; eauto).
    apply in_map_iff in Hc as [[k l] [Hk' Hin]]; simpl in Hk'; subst k.
    exists (mk (classify b) l); split; [|apply name_mk].
    apply (Permutation_in _ Hp), in_map_iff; exists (classify b, l); auto.
  - intros b g1 g2 H1 H2 B1 B2.
    rewrite Hmem in B1, B2 by auto.
    apply filter_In in B1 as [_ E1]; apply filter_In in B2 as [_ E2].
    apply jsstr_eqb_spec in E1, E2.
    apply (NoDup_map_inj name gs); auto; congruence.
Qed.

End Sorter.

Lemma sortObserverBindingsByGroup_sorter (LCOG : jsstring)
  (o : LifeCycleObserverOptions) (bs : list Binding) :
  sortObserverBindingsByGroup LCOG o bs
  = sorter _ mkGroup group (getObserverGroup LCOG o) (groupsByOrder o) bs.
Proof. reflexivity. Qed.

Lemma sortMiddlewareBindingsByPhase_sorter (o : MiddlewareOptions) (bs : list Binding) :
  sortMiddlewareBindingsByPhase o bs
  = sorter _ mkPhase phase getMiddlewarePhase (phasesByOrder o) bs.
Proof. reflexivity. Qed.

(** ** C1: the order of the groups *)

(** C1 (corrected).  For every list of handles and every priority list
    [P], each group sort returns a permutation of the groups of the
    partition, ordered by [before P]: groups whose name is absent from [P]
    come first, in lexicographic (UTF-16 code unit) order; after them come
    the groups present in [P], in ascending index in [P]. *)
Theorem group_sort_order :
  (forall (LCOG : jsstring) (o : LifeCycleObserverOptions) (bs : list Binding),
     let gs := sortObserverBindingsByGroup LCOG o bs in
     Permutation (map (fun e => mkGroup (fst e) (snd e))
                      (partition (getObserverGroup LCOG o) bs)) gs
     /\ StronglySorted (fun g1 g2 => before (groupsByOrder o) (group g1) (group g2)) gs)
  /\ (forall (o : MiddlewareOptions) (bs : list Binding),
     let ps := sortMiddlewareBindingsByPhase o bs in
     Permutation (map (fun e => mkPhase (fst e) (snd e))
                      (partition getMiddlewarePhase bs)) ps
     /\ StronglySorted (fun p1 p2 => before (phasesByOrder o) (phase p1) (phase p2)) ps).
Proof.
  split; intros; split.
  - apply (sorter_perm _ mkGroup group).
  - apply (sorter_sorted _ mkGroup group); reflexivity.
  - apply (sorter_perm _ mkPhase phase).
  - apply (sorter_sorted _ mkPhase phase); reflexivity.
Qed.

(** C1 counterexample: with priority list [['server']], an observer in
    group [server] and one without a group, the ungrouped group [''],
    absent from the list, is ordered before [server], which is present. *)
Lemma group_sort_absent_first :
  let P := groupsByOrder opts_server in
  let gs := sortObserverBindingsByGroup LCO_GROUP opts_server [A_server; B_plain] in
  map group gs = [s ""; s "server"]
  /\ indexOf P (s "") = -1 /\ indexOf P (s "server") = 0
  /\ ~ (forall i j g1 g2, nth_error gs i = Some g1 -> nth_error gs j = Some g2 ->
        indexOf P (group g1) <> -1 -> indexOf P (group g2) = -1 -> (i < j)%nat).
Proof.
  vm_compute; repeat split; try reflexivity.
  intros H; specialize (H 1%nat 0%nat); simpl in H.
  assert (K : (1 < 0)%nat) by (eapply H; eauto; discriminate).
  inversion K.
Qed.

(** ** C7: the partition keeps registration order *)

(** C7.  For every list of handles, each group sort puts every handle in
    exactly one group, and the members of each group are the handles of
    that group in input order (a [filter] of the input), so they are never
    re-sorted. *)
Theorem partition_registration_order :
  (forall (LCOG : jsstring) (o : LifeCycleObserverOptions) (bs : list Binding),
     let gs := sortObserverBindingsByGroup LCOG o bs in
     NoDup (map group gs)
     /\ (forall g, In g gs ->
           bindings g = filter (fun b => jsstr_eqb (getObserverGroup LCOG o b) (group g)) bs)
     /\ (forall b, In b bs -> exists g, In g gs /\ group g = getObserverGroup LCOG o b)
     /\ (forall b g1 g2, In g1 gs -> In g2 gs ->
           In b (bindings g1) -> In b (bindings g2) -> g1 = g2))
  /\ (forall (o : MiddlewareOptions) (bs : list Binding),
     let ps := sortMiddlewareBindingsByPhase o bs in
     NoDup (map phase ps)
     /\ (forall p, In p ps ->
           phase_bindings p = filter (fun b => jsstr_eqb (getMiddlewarePhase b) (phase p)) bs)
     /\ (forall b, In b bs -> exists p, In p ps /\ phase p = getMiddlewarePhase b)
     /\ (forall b p1 p2, In p1 ps -> In p2 ps ->
           In b (phase_bindings p1) -> In b (phase_bindings p2) -> p1 = p2)).
Proof.
  split; intros.
  - apply (sorter_partition _ mkGroup group bindings); reflexivity.
  - apply (sorter_partition _ mkPhase phase phase_bindings); reflexivity.
Qed.

(** ** Notification *)

Section Notify.

Variable env : Env.
Variable o : LifeCycleObserverOptions.

Lemma notify_sequential_ok (e : LifeCycleEvent) (bs : list Binding) (t : nat) :
  g_result (notify_sequential env e bs t) = Ok <-> Forall (member_ok env e) bs.
Proof.
  revert t; induction bs as [|b bs IH]; intros t; simpl.
  - split; auto.
  - destruct (notifyObserver env e b) as [d|d x] eqn:E; simpl.
    + rewrite IH; split; intros H; [constructor; [exists d|]; auto|inversion H; auto].
    + split; [discriminate|]; intros H; inversion H as [|? ? [d' Hd] _]; congruence.
Qed.

Lemma first_rejection_None (rs : list Settled) :
  first_rejection rs = None <-> Forall (fun r => exists d, r = Fulfilled d) rs.
Proof.
  induction rs as [|[d|d x] rs IH]; simpl.
  - split; auto.
  - rewrite IH; split; intros H; [constructor; eauto|inversion H; auto].
  - destruct (first_rejection rs) as [[d' x']|]; [destruct (d' <? d)%nat|];
      split; intros H; try discriminate; inversion H as [|? ? [? Hd] _]; discriminate.
Qed.

Lemma group_ok_iff (g : LifeCycleObserverGroup) (e : LifeCycleEvent) (t : nat) :
  g_result (notifyObserverGroup env o g e t) = Ok
  <-> Forall (member_ok env e) (bindings g).
Proof.
  unfold notifyObserverGroup.
  destruct (parallel o) as [[|]|]; try apply notify_sequential_ok.
  unfold notify_parallel, promise_all.
  destruct (first_rejection (map (notifyObserver env e) (bindings g))) as [[d x]|] eqn:F;
    simpl.
  - split; [discriminate|]; intros H; exfalso.
    assert (first_rejection (map (notifyObserver env e) (bindings g)) = None)
      by (apply first_rejection_None; rewrite Forall_map; exact H); congruence.
  - split; auto; intros _; apply first_rejection_None in F; rewrite Forall_map in F;
      exact F.
Qed.

Lemma notify_sequential_end (e : LifeCycleEvent) (bs : list Binding) (t : nat) :
  (t <= g_end (notify_sequential env e bs t))%nat.
Proof.
  revert t; induction bs as [|b bs IH]; intros t; simpl; [lia|].
  destruct (notifyObserver env e b); simpl; [specialize (IH (t + d)%nat)|]; lia.
Qed.

Lemma group_end_ge (g : LifeCycleObserverGroup) (e : LifeCycleEvent) (t : nat) :
  (t <= g_end (notifyObserverGroup env o g e t))%nat.
Proof.
  unfold notifyObserverGroup.
  destruct (parallel o) as [[|]|]; try apply notify_sequential_end.
  unfold notify_parallel; destruct (promise_all _); simpl; lia.
Qed.

Lemma chain_app (t t1 t2 : nat) (l1 l2 : list Notification) :
  chain t l1 t1 -> chain t1 l2 t2 -> chain t (l1 ++ l2) t2.
Proof.
  revert t; induction l1 as [|n l1 IH]; simpl; intros t H1 H2; [subst; auto|].
  destruct H1 as (? & ? & ?); repeat split; auto; eapply IH; eauto.
Qed.

(** What one pass of the inner loop of [notifyGroups] does. *)
Lemma notifyEvent_spec (e : LifeCycleEvent) (gs : list LifeCycleObserverGroup)
  (t t' : nat) (r : Result) (l : list Notification) :
  notifyEvent env o e gs t = (r, t', l) ->
  chain t l t'
  /\ Forall (fun n => n_event n = e) l
  /\ (r = Ok -> proj l = map (fun g => (e, g)) gs /\ Forall (run_ok env o) l)
  /\ (forall x, r = Err x ->
        proj l = firstn (length l) (map (fun g => (e, g)) gs)
        /\ exists l0 n, l = l0 ++ [n] /\ Forall (run_ok env o) l0
                        /\ g_result (ran env o n) = Err x).
Proof.
  revert t t' r l; induction gs as [|g gs IH]; intros t t' r l H; simpl in H.
  - injection H as <- <- <-; simpl; repeat split; auto; discriminate.
  - pose proof (group_end_ge g e t) as Hge.
    destruct (g_result (notifyObserverGroup env o g e t)) as [|x] eqn:R.
    + destruct (notifyEvent env o e gs (g_end (notifyObserverGroup env o g e t)))
        as [[r' t1] l1] eqn:E.
      injection H as <- <- <-.
      destruct (IH _ _ _ _ E) as (Hc & Hev & Hok & Herr).
      assert (Hn : run_ok env o (mkNotification e g t (g_end (notifyObserverGroup env o g e t))))
        by exact R.
      split; [simpl; auto|split; [constructor; auto|split]].
      * intros Hr; destruct (Hok Hr) as [Hp Hf]; split; [simpl; f_equal; auto|].
        constructor; auto.
      * intros x Hr; destruct (Herr x Hr) as [Hp (l0 & n' & Hl & H0 & Hn')].
        split; [simpl; f_equal; auto|].
        exists (mkNotification e g t (g_end (notifyObserverGroup env o g e t)) :: l0), n'.
        subst l1; split; [reflexivity|split; [constructor; auto|auto]].
    + injection H as <- <- <-.
      split; [simpl; auto|split; [constructor; auto|split]].
      * discriminate.
      * intros x' Hx; injection Hx as <-; split; [reflexivity|].
        exists [], (mkNotification e g t (g_end (notifyObserverGroup env o g e t))).
        split; [reflexivity|split; [constructor|exact R]].
Qed.

Lemma visits_cons (e : LifeCycleEvent) (evs : list LifeCycleEvent)
  (gs : list LifeCycleObserverGroup) :
  visits (e :: evs) gs = map (fun g => (e, g)) gs ++ visits evs gs.
Proof. reflexivity. Qed.

Lemma In_visits (evs : list LifeCycleEvent) (gs : list LifeCycleObserverGroup)
  (e : LifeCycleEvent) (g : LifeCycleObserverGroup) :
  In (e, g) (visits evs gs) <-> In e evs /\ In g gs.
Proof.
  unfold visits; rewrite in_flat_map; split.
  - intros [e' [He Hin]]; apply in_map_iff in Hin as [g' [Heq Hg]].
    injection Heq as -> ->; auto.
  - intros [He Hg]; exists e; split; auto; apply in_map_iff; eauto.
Qed.

(** What [notifyGroups] does: the group notifications run one after the
    other, event-major; a failed group notification ends the run. *)
Lemma notifyGroups_spec (evs : list LifeCycleEvent) (gs : list LifeCycleObserverGroup)
  (t t' : nat) (r : Result) (l : list Notification) :
  notifyGroups env o evs gs t = (r, t', l) ->
  chain t l t'
  /\ (r = Ok -> proj l = visits evs gs /\ Forall (run_ok env o) l)
  /\ (forall x, r = Err x ->
        proj l = firstn (length l) (visits evs gs)
        /\ exists l0 n, l = l0 ++ [n] /\ Forall (run_ok env o) l0
                        /\ g_result (ran env o n) = Err x).
Proof.
  revert t t' r l; induction evs as [|e evs IH]; intros t t' r l H; simpl in H.
  - injection H as <- <- <-; split; [reflexivity|split; [auto|discriminate]].
  - destruct (notifyEvent env o e gs t) as [[r1 t1] l1] eqn:E1.
    destruct (notifyEvent_spec _ _ _ _ _ _ E1) as (Hc1 & _ & Hok1 & Herr1).
    rewrite visits_cons.
    destruct r1 as [|x1].
    + destruct (notifyGroups env o evs gs t1) as [[r2 t2] l2] eqn:E2.
      injection H as <- <- <-.
      destruct (IH _ _ _ _ E2) as (Hc2 & Hok2 & Herr2).
      destruct (Hok1 eq_refl) as [Hp1 Hf1].
      split; [eapply chain_app; eauto|split].
      * intros Hr; destruct (Hok2 Hr) as [Hp2 Hf2]; unfold proj in *.
        rewrite map_app, Hp1, Hp2; split; auto; apply Forall_app; auto.
      * intros x Hr; destruct (Herr2 x Hr) as [Hp2 (l0 & n & Hl & H0 & Hn)].
        split.
        -- unfold proj in *; rewrite map_app, Hp1, Hp2, length_app.
           assert (Hlen : length l1 = length (map (fun g => (e, g)) gs))
             by (rewrite <- Hp1, length_map; reflexivity).
           rewrite Hlen, firstn_app_2; reflexivity.
        -- exists (l1 ++ l0), n; subst l2; rewrite app_assoc; split; auto.
           split; auto; apply Forall_app; auto.
    + injection H as <- <- <-.
      destruct (Herr1 x1 eq_refl) as [Hp1 Hlast].
      split; [auto|split; [discriminate|]].
      intros x Hx; injection Hx as <-; split; [|exact Hlast].
      assert (Hle : (length l1 <= length (map (fun g => (e, g)) gs))%nat).
      { assert (K : length (proj l1) = length l1) by apply length_map.
        rewrite Hp1, length_firstn in K; lia. }
      rewrite Hp1, firstn_app.
      replace (length l1 - length (map (fun g => (e, g)) gs))%nat with 0%nat by lia.
      rewrite app_nil_r; reflexivity.
Qed.

(** A run of [notifyGroups] succeeds exactly when no member notification
    it is asked for fails. *)
Lemma notifyGroups_ok_iff (evs : list LifeCycleEvent) (gs : list LifeCycleObserverGroup)
  (t t' : nat) (r : Result) (l : list Notification) :
  notifyGroups env o evs gs t = (r, t', l) ->
  (r = Ok <-> forall e g b, In e evs -> In g gs -> In b (bindings g) -> member_ok env e b).
Proof.
  intros H; destruct (notifyGroups_spec _ _ _ _ _ _ H) as (_ & Hok & Herr).
  split.
  - intros Hr e g b He Hg Hb; destruct (Hok Hr) as [Hp Hf].
    assert (Hin : In (e, g) (proj l)) by (rewrite Hp; apply In_visits; auto).
    unfold proj in Hin; apply in_map_iff in Hin as [n [Heq Hn]].
    injection Heq as <- <-.
    rewrite Forall_forall in Hf; specialize (Hf n Hn); unfold run_ok, ran in Hf.
    apply group_ok_iff in Hf; rewrite Forall_forall in Hf; auto.
  - intros Hall; destruct r as [|x]; auto; exfalso.
    destruct (Herr x eq_refl) as [Hp (l0 & n & Hl & _ & Hn)].
    assert (Hin : In (n_event n, n_group n) (visits evs gs)).
    { rewrite <- (firstn_skipn (length l) (visits evs gs)); apply in_or_app; left.
      rewrite <- Hp; unfold proj; apply (in_map (fun n => (n_event n, n_group n))).
      rewrite Hl; apply in_or_app; simpl; auto. }
    apply In_visits in Hin as [He Hg].
    assert (Hok' : g_result (ran env o n) = Ok).
    { unfold ran; apply group_ok_iff, Forall_forall; intros b Hb.
      apply (Hall _ (n_group n)); auto. }
    congruence.
Qed.

End Notify.

Lemma groups_for_map (e e' : LifeCycleEvent) (gs : list LifeCycleObserverGroup) :
  groups_for e (map (fun g => (e', g)) gs) = if event_eqb e' e then gs else [].
Proof.
  unfold groups_for; induction gs as [|g gs IH]; simpl.
  - destruct (event_eqb e' e); reflexivity.
  - destruct (event_eqb e' e) eqn:E; simpl in *; rewrite IH; reflexivity.
Qed.

Lemma groups_for_app (e : LifeCycleEvent) (l1 l2 : list (LifeCycleEvent * LifeCycleObserverGroup)) :
  groups_for e (l1 ++ l2) = groups_for e l1 ++ groups_for e l2.
Proof. unfold groups_for; rewrite filter_app, map_app; reflexivity. Qed.

(** ** C2: stop reverses the group order of start *)

(** C2.  For a fixed handle set [ctx] and configuration [o], let [gs] be
    the groups of [getObserverGroupsByOrder].  Every run of [start()]
    notifies a prefix of: [gs] for [preStart], then for [start], then for
    [postStart]; every run of [stop()] notifies a prefix of: [rev gs] for
    [preStop], then for [stop], then for [postStop] (the sub-events in
    their declared order, never reversed).  When both complete, for the
    k-th sub-event the groups [stop()] visits are the reverse of those
    [start()] visits, as the same group records, so with the same members
    in the same order. *)
Theorem stop_reverses_start (LCO LCOG : jsstring) (env env' : Env)
  (o : LifeCycleObserverOptions) (ctx : list Binding) (t t' t1 t2 : nat)
  (r1 r2 : Result) (ls lt : list Notification) :
  start LCO LCOG env o ctx t = (r1, t1, ls) ->
  stop LCO LCOG env' o ctx t' = (r2, t2, lt) ->
  let gs := getObserverGroupsByOrder LCO LCOG o ctx in
  proj ls = firstn (length ls) (visits startEvents gs)
  /\ proj lt = firstn (length lt) (visits stopEvents (rev gs))
  /\ (r1 = Ok -> proj ls = visits startEvents gs)
  /\ (r2 = Ok -> proj lt = visits stopEvents (rev gs))
  /\ (r1 = Ok -> r2 = Ok -> forall k, (k < 3)%nat ->
        groups_for (nth k stopEvents ev_stop) (proj lt)
        = rev (groups_for (nth k startEvents ev_start) (proj ls))).
Proof.
  intros H1 H2 gs.
  destruct (notifyGroups_spec env o _ _ _ _ _ _ H1) as (_ & Hok1 & Herr1).
  destruct (notifyGroups_spec env' o _ _ _ _ _ _ H2) as (_ & Hok2 & Herr2).
  assert (Pre : forall (l : list Notification) vs r,
            (r = Ok -> proj l = vs) -> (forall x, r = Err x -> proj l = firstn (length l) vs) ->
            proj l = firstn (length l) vs).
  { intros l vs r Ho He; destruct r as [|x]; [|apply (He x eq_refl)].
    pose proof (Ho eq_refl) as E; rewrite E, firstn_all2; auto.
    rewrite <- E; unfold proj; rewrite length_map; lia. }
  split; [apply (Pre _ _ r1); [apply Hok1|intros x Hx; apply (Herr1 x Hx)]|].
  split; [apply (Pre _ _ r2); [apply Hok2|intros x Hx; apply (Herr2 x Hx)]|].
  split; [intros ->; apply Hok1; auto|split; [intros ->; apply Hok2; auto|]].
  intros -> -> k Hk.
  destruct (Hok1 eq_refl) as [P1 _]; destruct (Hok2 eq_refl) as [P2 _].
  rewrite P1, P2.
  unfold startEvents, stopEvents; rewrite !visits_cons; unfold visits; simpl.
  rewrite !app_nil_r, !groups_for_app, !groups_for_map.
  destruct k as [|[|[|k]]]; simpl; rewrite ?app_nil_r; auto; lia.
Qed.

(** ** C5: notification is sub-event-major *)

(** C5.  When [start()] completes, the calls of [notifyObserverGroup] it
    made are, in order: every ordered group for [preStart], then every
    group for [start], then every group for [postStart]; each call begins
    when the previous one has settled.  Independently, when [stop()]
    completes, the same holds for [preStop], [stop], [postStop] on the
    reversed groups. *)
Theorem notification_event_major (LCO LCOG : jsstring) (env : Env)
  (o : LifeCycleObserverOptions) (ctx : list Binding) (t t1 t' t2 : nat)
  (ls lt : list Notification) :
  let gs := getObserverGroupsByOrder LCO LCOG o ctx in
  (start LCO LCOG env o ctx t = (Ok, t1, ls) ->
     proj ls = map (fun g => (ev_preStart, g)) gs ++ map (fun g => (ev_start, g)) gs
               ++ map (fun g => (ev_postStart, g)) gs
     /\ chain t ls t1)
  /\ (stop LCO LCOG env o ctx t' = (Ok, t2, lt) ->
     proj lt = map (fun g => (ev_preStop, g)) (rev gs) ++ map (fun g => (ev_stop, g)) (rev gs)
               ++ map (fun g => (ev_postStop, g)) (rev gs)
     /\ chain t' lt t2).
Proof.
  intros gs; split; intros H.
  - destruct (notifyGroups_spec env o _ _ _ _ _ _ H) as (C & Hok & _).
    destruct (Hok eq_refl) as [P _].
    rewrite P; unfold visits; simpl; rewrite !app_nil_r; auto.
  - destruct (notifyGroups_spec env o _ _ _ _ _ _ H) as (C & Hok & _).
    destruct (Hok eq_refl) as [P _].
    rewrite P; unfold visits; simpl; rewrite !app_nil_r; auto.
Qed.

(** ** C4: errors abort the transition *)

(** C4.  For every run of [start()] (resp. [stop()]): the run succeeds if
    and only if no member notification it is asked for (resolution, then
    invocation) fails, so a failure is never swallowed; and when it fails
    with error [x], the group notifications made are a prefix of the full
    event-major sequence, the last of them is the one that failed with [x],
    and nothing after it (no later group, no later sub-event) was
    notified. *)
Theorem transition_errors_abort (LCO LCOG : jsstring) (env : Env)
  (o : LifeCycleObserverOptions) (ctx : list Binding) (t t' : nat) (r : Result)
  (l : list Notification) :
  let gs := getObserverGroupsByOrder LCO LCOG o ctx in
  (start LCO LCOG env o ctx t = (r, t', l) ->
     (r = Ok <-> forall e g b, In e startEvents -> In g gs -> In b (bindings g) ->
                 member_ok env e b)
     /\ (forall x, r = Err x ->
           proj l = firstn (length l) (visits startEvents gs)
           /\ exists l0 n, l = l0 ++ [n] /\ Forall (run_ok env o) l0
                           /\ g_result (ran env o n) = Err x))
  /\ (stop LCO LCOG env o ctx t = (r, t', l) ->
     (r = Ok <-> forall e g b, In e stopEvents -> In g (rev gs) -> In b (bindings g) ->
                 member_ok env e b)
     /\ (forall x, r = Err x ->
           proj l = firstn (length l) (visits stopEvents (rev gs))
           /\ exists l0 n, l = l0 ++ [n] /\ Forall (run_ok env o) l0
                           /\ g_result (ran env o n) = Err x)).
Proof.
  intros gs; split; intros H.
  - split; [eapply notifyGroups_ok_iff; eauto|].
    intros x Hx; eapply notifyGroups_spec; eauto.
  - split; [eapply notifyGroups_ok_iff; eauto|].
    intros x Hx; eapply notifyGroups_spec; eauto.
Qed.

(** ** C3: parallel groups fail fast *)

Lemma first_rejection_Some (rs : list Settled) (d : nat) (x : Error) :
  first_rejection rs = Some (d, x) ->
  In (Rejected d x) rs /\ forall d' x', In (Rejected d' x') rs -> (d <= d')%nat.
Proof.
  revert d x; induction rs as [|[d0|d0 x0] rs IH]; simpl; intros d x H;
    [discriminate| |].
  - destruct (IH _ _ H) as [Hin Hmin]; split; auto.
    intros d' x' [Heq|Hin']; [discriminate|eauto].
  - destruct (first_rejection rs) as [[d1 x1]|] eqn:F.
    + destruct (IH _ _ eq_refl) as [Hin Hmin].
      destruct (Nat.ltb_spec d1 d0); injection H as <- <-.
      * split; auto; intros d' x' [Heq|Hin']; [injection Heq as <- <-; lia|eauto].
      * split; auto; intros d' x' [Heq|Hin']; [injection Heq as <- <-; lia|].
        specialize (Hmin _ _ Hin'); lia.
    + injection H as <- <-; split; auto.
      intros d' x' [Heq|Hin']; [injection Heq as <- <-; lia|].
      assert (Hn := proj1 (first_rejection_None rs) F).
      rewrite Forall_forall in Hn; destruct (Hn _ Hin') as [? ?]; discriminate.
Qed.

Lemma duration_le_max (rs : list Settled) (r : Settled) :
  In r rs -> (duration r <= fold_right Nat.max 0 (map duration rs))%nat.
Proof.
  induction rs as [|r' rs IH]; simpl; intros H; [contradiction|].
  destruct H as [<-|H]; [lia|specialize (IH H); lia].
Qed.

(** C3 (corrected).  In parallel mode, [notifyObserverGroup] starts the
    notification of every member at once and cancels none (each member's
    notification settles at its own time).  If one or more members fail,
    the group rejects as soon as the earliest failure settles, with that
    failure's error, without waiting for the other members; if none fails,
    it settles after the last member has settled. *)
Theorem parallel_group_fail_fast (env : Env) (o : LifeCycleObserverOptions)
  (g : LifeCycleObserverGroup) (e : LifeCycleEvent) (t : nat) :
  parallel o = Some true ->
  let r := notifyObserverGroup env o g e t in
  let rs := map (notifyObserver env e) (bindings g) in
  g_settles r = map (fun x => t + duration x)%nat rs
  /\ (g_result r = Ok ->
        Forall (member_ok env e) (bindings g)
        /\ Forall (fun st => st <= g_end r)%nat (g_settles r))
  /\ (forall x, g_result r = Err x ->
        exists b d, In b (bindings g) /\ notifyObserver env e b = Rejected d x
          /\ g_end r = (t + d)%nat
          /\ forall b' d' x', In b' (bindings g) -> notifyObserver env e b' = Rejected d' x' ->
                              (d <= d')%nat)
  /\ ((exists b d x, In b (bindings g) /\ notifyObserver env e b = Rejected d x) ->
        exists x, g_result r = Err x).
Proof.
  intros Hp r rs.
  assert (Hr : r = notify_parallel env e (bindings g) t)
    by (unfold r, notifyObserverGroup; rewrite Hp; reflexivity).
  rewrite Hr; unfold notify_parallel, promise_all; fold rs.
  destruct (first_rejection rs) as [[d x]|] eqn:F; simpl.
  - destruct (first_rejection_Some _ _ _ F) as [Hin Hmin].
    split; [reflexivity|split; [discriminate|split]].
    + intros x' Hx; injection Hx as <-.
      unfold rs in Hin; apply in_map_iff in Hin as [b [Hb Hbin]].
      exists b, d; repeat split; auto.
      intros b' d' x' Hb' Hr'; apply (Hmin d' x').
      rewrite <- Hr'; apply in_map; auto.
    + intros _; eauto.
  - split; [reflexivity|split; [|split]].
    + intros _; split.
      * apply first_rejection_None in F; unfold rs in F; rewrite Forall_map in F; exact F.
      * apply Forall_forall; intros st Hst; apply in_map_iff in Hst as [x [<- Hx]].
        pose proof (duration_le_max _ _ Hx); lia.
    + discriminate.
    + intros (b & d & x & Hb & Hr').
      apply first_rejection_None in F; rewrite Forall_forall in F.
      destruct (F (Rejected d x)) as [? ?]; [rewrite <- Hr'; apply in_map; auto|discriminate].
Qed.

(** C3 counterexample: observers [A] and [D] of group [server], notified in
    parallel; [A] fails after 1, [D] completes after 5.  [start()] rejects
    at time 1 with [A]'s error while [D]'s notification settles at 5: the
    error reaches the caller before every invocation of the group has
    completed. *)
Lemma parallel_error_before_all_settled :
  let R := start LCO LCO_GROUP env_A_fails opts_server ctx_AD 0 in
  let g := mkGroup (s "server") [A_server; D_server] in
  getObserverGroupsByOrder LCO LCO_GROUP opts_server ctx_AD = [g]
  /\ fst (fst R) = Err (s "boom")
  /\ snd (fst R) = 1%nat
  /\ g_settles (notifyObserverGroup env_A_fails opts_server g ev_preStart 0) = [1; 5]%nat
  /\ ~ (forall st, In st (g_settles (notifyObserverGroup env_A_fails opts_server g ev_preStart 0)) ->
        (st <= snd (fst R))%nat).
Proof.
  vm_compute; repeat split; try reflexivity.
  intros H; specialize (H 5%nat (or_intror (or_introl eq_refl))); lia.
Qed.

(** ** C6: classification *)

Lemma find_first_first {X} (p : X -> bool) (pre post : list X) (x : X) :
  p x = true -> (forall y, In y pre -> p y = false) ->
  find_first p (pre ++ x :: post) = Some x.
Proof.
  induction pre as [|y pre IH]; simpl; intros Hx Hpre; [rewrite Hx; auto|].
  rewrite Hpre by auto; apply IH; auto.
Qed.

Lemma find_first_none {X} (p : X -> bool) (l : list X) :
  (forall y, In y l -> p y = false) -> find_first p l = None.
Proof.
  induction l as [|y l IH]; simpl; intros H; auto; rewrite H by auto; auto.
Qed.

(** C6 (corrected).  [getObserverGroup] returns the value of the explicit
    group tag when that value is a non-empty string; otherwise (no such tag,
    or an empty one) the first name [g] of [groupsByOrder] for which the
    handle carries the marker tag [g: g]; otherwise the empty string.  A
    handle with no tags at all gets the empty string. *)
Theorem getObserverGroup_spec (LCOG : jsstring) (o : LifeCycleObserverOptions)
  (b : Binding) :
  (forall v, tag_get (tagMap b) LCOG = Some v -> v <> [] ->
     getObserverGroup LCOG o b = v)
  /\ (truthy (tag_get (tagMap b) LCOG) = false ->
      forall pre g post, groupsByOrder o = pre ++ g :: post ->
      tag_get (tagMap b) g = Some g ->
      (forall g', In g' pre -> tag_get (tagMap b) g' <> Some g') ->
      getObserverGroup LCOG o b = g)
  /\ (truthy (tag_get (tagMap b) LCOG) = false ->
      (forall g, In g (groupsByOrder o) -> tag_get (tagMap b) g <> Some g) ->
      getObserverGroup LCOG o b = [])
  /\ (tagMap b = [] -> getObserverGroup LCOG o b = []).
Proof.
  unfold getObserverGroup.
  assert (Hm : forall g, opt_str_eqb (tag_get (tagMap b) g) g = true
                         <-> tag_get (tagMap b) g = Some g).
  { intros g; unfold opt_str_eqb; destruct (tag_get (tagMap b) g) as [y|];
      [rewrite jsstr_eqb_spec; split; congruence|split; discriminate]. }
  split; [|split; [|split]].
  - intros v Hv Hne; rewrite Hv; destruct v; [congruence|reflexivity].
  - intros Ht pre g post Ho Hg Hpre; rewrite Ht, Ho; simpl.
    rewrite find_first_first; [unfold or_empty, truthy; destruct g; auto|apply Hm; auto|].
    intros y Hy; destruct (opt_str_eqb _ _) eqn:E; auto; apply Hm in E.
    exfalso; eapply Hpre; eauto.
  - intros Ht Hno; rewrite Ht; simpl; rewrite find_first_none; auto.
    intros y Hy; destruct (opt_str_eqb _ _) eqn:E; auto; apply Hm in E.
    exfalso; eapply Hno; eauto.
  - intros Ht; rewrite Ht; simpl; rewrite find_first_none; auto.
Qed.

(** C6 counterexample: the explicit group tag of [E] is present with the
    value [''], yet [getObserverGroup] returns [server], from the marker
    tag. *)
Lemma getObserverGroup_empty_tag_falls_back :
  tag_get (tagMap E_empty_group) LCO_GROUP = Some []
  /\ getObserverGroup LCO_GROUP opts_server E_empty_group = s "server".
Proof. vm_compute; split; reflexivity. Qed.

(** ** C8: the middleware phases and the life cycle groups *)

Lemma partition_ext (f g : Binding -> jsstring) (bs : list Binding) :
  (forall b, In b bs -> f b = g b) -> partition f bs = partition g bs.
Proof.
  unfold partition; generalize (@nil (jsstring * list Binding)).
  induction bs as [|b bs IH]; simpl; intros m H; auto.
  rewrite H by auto; apply IH; auto.
Qed.

Lemma insert_by_map {X Y} (h : X -> Y) (cx : X -> X -> Z) (cy : Y -> Y -> Z)
  (x : X) (l : list X) :
  (forall a b, cx a b = cy (h a) (h b)) ->
  map h (insert_by cx x l) = insert_by cy (h x) (map h l).
Proof.
  intros Hc; induction l as [|y l IH]; simpl; auto.
  rewrite Hc; destruct (cy (h x) (h y) >? 0); simpl; rewrite ?IH; auto.
Qed.

Lemma sort_by_map {X Y} (h : X -> Y) (cx : X -> X -> Z) (cy : Y -> Y -> Z)
  (l : list X) :
  (forall a b, cx a b = cy (h a) (h b)) ->
  map h (sort_by cx l) = sort_by cy (map h l).
Proof.
  intros Hc; induction l as [|x l IH]; simpl; auto.
  rewrite (insert_by_map h cx cy) by auto; rewrite IH; auto.
Qed.

(** C8 (corrected).  [getMiddlewarePhase] reads only the [phase] tag: it is
    [getObserverGroup] with group tag ["phase"] and no marker-tag
    vocabulary.  The partition and the order are the same mechanism: for
    every handle list and priority list [P] such that no handle without a
    non-empty [phase] tag carries a marker tag [g: g] for a name [g] of
    [P], the middleware phases (name and members, in order) are the life
    cycle groups computed with group tag ["phase"] and [groupsByOrder = P]. *)
Theorem middleware_phases_as_groups :
  (forall (par : option bool) (b : Binding),
     getMiddlewarePhase b = getObserverGroup (s "phase") (mkLifeCycleObserverOptions [] par) b)
  /\ (forall (mo : MiddlewareOptions) (par : option bool) (bs : list Binding),
     (forall b, In b bs -> truthy (tag_get (tagMap b) (s "phase")) = false ->
        forall g, In g (phasesByOrder mo) -> tag_get (tagMap b) g <> Some g) ->
     map (fun p => (phase p, phase_bindings p)) (sortMiddlewareBindingsByPhase mo bs)
     = map (fun g => (group g, bindings g))
           (sortObserverBindingsByGroup (s "phase")
              (mkLifeCycleObserverOptions (phasesByOrder mo) par) bs)).
Proof.
  split.
  - intros par b; unfold getMiddlewarePhase, getObserverGroup; simpl.
    destruct (truthy (tag_get (tagMap b) (s "phase"))) eqn:T; simpl; auto.
    destruct (tag_get (tagMap b) (s "phase")) as [[|]|]; simpl in *; auto; discriminate.
  - intros mo par bs Hno.
    assert (Hcl : forall b, In b bs ->
              getMiddlewarePhase b
              = getObserverGroup (s "phase") (mkLifeCycleObserverOptions (phasesByOrder mo) par) b).
    { intros b Hb; unfold getMiddlewarePhase, getObserverGroup; simpl.
      destruct (truthy (tag_get (tagMap b) (s "phase"))) eqn:T; simpl; auto.
      rewrite find_first_none.
      - destruct (tag_get (tagMap b) (s "phase")) as [[|]|]; simpl in *; auto; discriminate.
      - intros g Hg; unfold opt_str_eqb.
        specialize (Hno b Hb T g Hg).
        destruct (tag_get (tagMap b) g) as [y|]; auto.
        apply jsstr_eqb_neq; congruence. }
    unfold sortMiddlewareBindingsByPhase, sortObserverBindingsByGroup; simpl.
    rewrite (partition_ext _ _ _ Hcl).
    rewrite (sort_by_map (fun p => (phase p, phase_bindings p)) _
               (fun x y => order_cmp (phasesByOrder mo) (fst x) (fst y))) by reflexivity.
    rewrite (sort_by_map (fun g => (group g, bindings g)) _
               (fun x y => order_cmp (phasesByOrder mo) (fst x) (fst y))) by reflexivity.
    rewrite !map_map; reflexivity.
Qed.

(** C8 counterexample: with priority list [['auth']], a middleware binding
    carrying the marker tag [auth: 'auth'] and no [phase] tag is put in
    phase [''] by the middleware registry, but in group [auth] by the life
    cycle classifier with group tag ["phase"]. *)
Lemma middleware_phase_ignores_marker_tags :
  map (fun p => (phase p, phase_bindings p)) (sortMiddlewareBindingsByPhase mw_opts_auth [M_auth])
  = [(s "", [M_auth])]
  /\ map (fun g => (group g, bindings g))
       (sortObserverBindingsByGroup (s "phase") (mkLifeCycleObserverOptions [s "auth"] (Some false))
          [M_auth])
     = [(s "auth", [M_auth])].
Proof. vm_compute; split; reflexivity. Qed.

(** ** C9: building the router *)

Lemma indexOfBinding_In (l : list Binding) (b : Binding) :
  In b l -> exists i, indexOfBinding l b = Z.of_nat i /\ nth_error l i = Some b.
Proof.
  induction l as [|y l IH]; simpl; intros H; [contradiction|].
  destruct (binding_eq_dec y b) as [->|Hne]; [exists 0%nat; auto|].
  destruct H as [->|H]; [congruence|].
  destruct (IH H) as [i [Hi Hn]]; rewrite Hi.
  exists (S i); split; auto.
  destruct (Z.eqb_spec (Z.of_nat i) (-1)); [lia|]; lia.
Qed.

Lemma view_values_nth (mw_value : Binding -> option Handler) (l : list Binding)
  (hs : list Handler) (i : nat) (b : Binding) :
  view_values mw_value l = Some hs -> nth_error l i = Some b ->
  exists h, mw_value b = Some h /\ nth_error hs i = Some h.
Proof.
  revert hs i; induction l as [|y l IH]; simpl; intros hs i Hv Hn.
  - destruct i; discriminate.
  - destruct (mw_value y) as [h|] eqn:Hy; [|discriminate].
    destruct (view_values mw_value l) as [hs'|] eqn:Hl; [|discriminate].
    injection Hv as <-.
    destruct i as [|i]; simpl in Hn.
    + injection Hn as <-; exists h; auto.
    + apply (IH hs' i); auto.
Qed.

Lemma view_values_None (mw_value : Binding -> option Handler) (l : list Binding) :
  view_values mw_value l = None <-> exists b, In b l /\ mw_value b = None.
Proof.
  induction l as [|y l IH]; simpl.
  - split; [discriminate|intros [? [[] _]]].
  - destruct (mw_value y) as [h|] eqn:Hy.
    + destruct (view_values mw_value l) eqn:Hl; split.
      * discriminate.
      * intros [b [[<-|Hb] Hn]]; [congruence|].
        assert (Hx : exists b, In b l /\ mw_value b = None) by eauto.
        apply IH in Hx; discriminate.
      * intros _; destruct (proj1 IH eq_refl) as [b [? ?]]; eauto.
      * auto.
    + split; auto; intros _; exists y; auto.
Qed.

(** The router [createExpressRouter] builds, mount by mount. *)
Lemma createExpressRouter_eq (mw_value : Binding -> option Handler)
  (o : MiddlewareOptions) (view : list Binding) :
  createExpressRouter mw_value o view
  = match view_values mw_value view with
    | None => None
    | Some _ =>
        Some (map (fun p => map (mount_of mw_value) (phase_bindings p))
                  (sortMiddlewareBindingsByPhase o view))
    end.
Proof.
  unfold createExpressRouter.
  destruct (view_values mw_value view) as [hs|] eqn:Hv; auto.
  f_equal; apply map_ext_in; intros p Hp; apply map_ext_in; intros b Hb.
  assert (Hbv : In b view).
  { rewrite sortMiddlewareBindingsByPhase_sorter in Hp.
    pose proof (proj1 (proj2 (sorter_partition _ mkPhase phase phase_bindings
                  (fun _ _ => eq_refl) (fun _ _ => eq_refl) getMiddlewarePhase
                  (phasesByOrder o) view)) p Hp) as Hf.
    rewrite Hf in Hb; apply filter_In in Hb as [Hb _]; exact Hb. }
  destruct (indexOfBinding_In view b Hbv) as [i [Hi Hn]].
  destruct (view_values_nth _ _ _ _ _ Hv Hn) as [h [Hh Hhs]].
  assert (Hat : js_at hs (indexOfBinding view b) = mw_value b).
  { rewrite Hi, Hh; unfold js_at.
    destruct (Z.ltb_spec (Z.of_nat i) 0); [lia|]; rewrite Nat2Z.id; auto. }
  rewrite Hat; unfold mount_of.
  destruct (tag_get (tagMap b) (s "path")) as [[|c pth]|]; reflexivity.
Qed.

(** C9.  [createExpressRouter] is a function of the bindings of the view,
    the values they resolve to and the options: it fails exactly when a
    binding of the view fails to resolve, and otherwise builds one phase
    router per phase, in the order of [sortMiddlewareBindingsByPhase],
    each mounting its members in registration order, each member with its
    own handler and, when it has a non-empty [path] tag, scoped to that
    path.  So two builds over an unchanged view and configuration give the
    same router. *)
Theorem createExpressRouter_spec (mw_value : Binding -> option Handler)
  (o : MiddlewareOptions) (view : list Binding) :
  createExpressRouter mw_value o view
  = match view_values mw_value view with
    | None => None
    | Some _ =>
        Some (map (fun p => map (mount_of mw_value) (phase_bindings p))
                  (sortMiddlewareBindingsByPhase o view))
    end
  /\ (createExpressRouter mw_value o view = None
      <-> exists b, In b view /\ mw_value b = None).
Proof.
  pose proof (createExpressRouter_eq mw_value o view) as Heq.
  split; auto.
  rewrite Heq, <- view_values_None.
  destruct (view_values mw_value view); split; congruence.
Qed.

(** ** C10: constructor defaults *)

Lemma StronglySorted_weaken {X} (R1 R2 : X -> X -> Prop) (l : list X) :
  (forall a b, R1 a b -> R2 a b) -> StronglySorted R1 l -> StronglySorted R2 l.
Proof.
  intros H Hs; induction Hs; constructor; auto.
  eapply Forall_impl; [|eassumption]; auto.
Qed.

(** C10.  With no injected options, [LifeCycleObserverRegistry] uses
    [{parallel: true, groupsByOrder: ['server']}] and [MiddlewareRegistry]
    uses [{parallel: false, phasesByOrder: []}].  Hence every group of life
    cycle observers is notified in parallel mode, and the middleware
    phases are sorted strictly alphabetically by name. *)
Theorem constructor_defaults :
  LifeCycleObserverRegistry_options None = mkLifeCycleObserverOptions [s "server"] (Some true)
  /\ MiddlewareRegistry_options None = mkMiddlewareOptions [] (Some false)
  /\ (forall env g e t,
        notifyObserverGroup env (LifeCycleObserverRegistry_options None) g e t
        = notify_parallel env e (bindings g) t)
  /\ (forall bs,
        StronglySorted (fun p1 p2 => js_lt (phase p1) (phase p2) = true)
          (sortMiddlewareBindingsByPhase (MiddlewareRegistry_options None) bs)).
Proof.
  split; [reflexivity|split; [reflexivity|split; [reflexivity|]]].
  intros bs; rewrite sortMiddlewareBindingsByPhase_sorter.
  eapply StronglySorted_weaken;
    [|apply (sorter_sorted _ mkPhase phase (fun _ _ => eq_refl))].
  unfold before; simpl; intros a b [(_ & _ & H)|[(_ & H)|(H & _)]]; auto; congruence.
Qed.

(** ** Further properties of the registries *)

(** *** Partition and sort: multiplicities and canonical order *)

Lemma Permutation_concat_perm {X} (l1 l2 : list (list X)) :
  Permutation l1 l2 -> Permutation (concat l1) (concat l2).
Proof.
  induction 1; simpl; auto.
  - apply Permutation_app_head; auto.
  - rewrite !app_assoc; apply Permutation_app_tail, Permutation_app_comm.
  - eapply perm_trans; eauto.
Qed.

Lemma groupMap_push_concat (m : GroupMap) (g : jsstring) (b : Binding) :
  In g (map fst m) ->
  Permutation (concat (map snd (groupMap_push m g b))) (concat (map snd m) ++ [b]).
Proof.
  induction m as [|[k bs] m IH]; simpl; intros H; [contradiction|].
  destruct (jsstr_eqb k g) eqn:E; simpl.
  - rewrite <- !app_assoc; apply Permutation_app_head, Permutation_app_comm.
  - destruct H as [->|H]; [rewrite jsstr_eqb_refl in E; discriminate|].
    rewrite <- app_assoc; apply Permutation_app_head, IH; auto.
Qed.

Lemma groupMap_add_concat (m : GroupMap) (g : jsstring) (b : Binding) :
  Permutation (concat (map snd (groupMap_add m g b))) (concat (map snd m) ++ [b]).
Proof.
  unfold groupMap_add.
  destruct (groupMap_get m g) eqn:G.
  - apply groupMap_push_concat.
    destruct (in_dec (list_eq_dec N.eq_dec) g (map fst m)) as [|Hn]; auto.
    apply groupMap_get_None in Hn; congruence.
  - apply groupMap_get_None in G.
    rewrite groupMap_push_app_new by auto.
    rewrite !map_app, !concat_app; simpl; rewrite ?app_nil_r; apply Permutation_refl.
Qed.

(** Every handle lands in the group map exactly as often as it occurs. *)
Lemma partition_concat (classify : Binding -> jsstring) (bs : list Binding) :
  Permutation (concat (map snd (partition classify bs))) bs.
Proof.
  unfold partition.
  assert (H : forall bs m,
            Permutation
              (concat (map snd (fold_left (fun m b => groupMap_add m (classify b) b) bs m)))
              (concat (map snd m) ++ bs)).
  { induction bs0 as [|b bs0 IH]; intros m; simpl; [rewrite app_nil_r; auto|].
    eapply perm_trans; [apply IH|].
    replace (concat (map snd m) ++ b :: bs0) with ((concat (map snd m) ++ [b]) ++ bs0)
      by (rewrite <- app_assoc; reflexivity).
    apply Permutation_app_tail, groupMap_add_concat. }
  apply (H bs []).
Qed.

Lemma StronglySorted_map {X Y} (f : X -> Y) (R : Y -> Y -> Prop) (l : list X) :
  StronglySorted (fun a b => R (f a) (f b)) l -> StronglySorted R (map f l).
Proof.
  induction 1; simpl; constructor; auto.
  apply Forall_map; auto.
Qed.

(** A strict order has at most one strongly sorted arrangement of a set. *)
Lemma StronglySorted_unique {X} (R : X -> X -> Prop) (l1 l2 : list X) :
  (forall a, ~ R a a) -> (forall a b c, R a b -> R b c -> R a c) ->
  StronglySorted R l1 -> StronglySorted R l2 ->
  (forall x, In x l1 <-> In x l2) -> l1 = l2.
Proof.
  intros Hirr Htr H1; revert l2.
  induction H1 as [|a l1 S1 IH F1]; intros l2 H2 Hin.
  - destruct l2 as [|b l2]; auto.
    exfalso; apply (proj2 (Hin b)); simpl; auto.
  - destruct H2 as [|b l2 S2 F2].
    + exfalso; apply (proj1 (Hin a)); simpl; auto.
    + rewrite Forall_forall in F1, F2.
      assert (a = b).
      { destruct (proj1 (Hin a) (or_introl eq_refl)) as [->|Ha]; auto.
        destruct (proj2 (Hin b) (or_introl eq_refl)) as [->|Hb]; auto.
        exfalso; apply (Hirr a); apply (Htr a b a); auto. }
      subst b; f_equal; apply IH; auto.
      intros x; split; intros Hx.
      * destruct (proj1 (Hin x) (or_intror Hx)) as [<-|]; auto.
        exfalso; apply (Hirr a); auto.
      * destruct (proj2 (Hin x) (or_intror Hx)) as [<-|]; auto.
        exfalso; apply (Hirr a); auto.
Qed.

Lemma before_irrefl (o : list jsstring) (a : jsstring) : ~ before o a a.
Proof.
  unfold before; rewrite js_lt_irrefl.
  intros [(_ & _ & H)|[(H1 & H2)|(_ & _ & H)]]; [discriminate|lia|lia].
Qed.

Section SorterMore.

Variable G : Type.
Variable mk : jsstring -> list Binding -> G.
Variable name : G -> jsstring.
Variable members_of : G -> list Binding.
Hypothesis name_mk : forall g l, name (mk g l) = g.
Hypothesis members_mk : forall g l, members_of (mk g l) = l.
Variable classify : Binding -> jsstring.
Variable order : list jsstring.

Lemma sorter_concat (bs : list Binding) :
  Permutation (concat (map members_of (sorter G mk name classify order bs))) bs.
Proof.
  eapply perm_trans;
    [apply Permutation_concat_perm, Permutation_map, Permutation_sym,
       (sorter_perm G mk name classify order)|].
  rewrite map_map; erewrite map_ext by (intros; apply members_mk).
  apply partition_concat.
Qed.

Lemma sorter_nonempty (bs : list Binding) (g : G) :
  In g (sorter G mk name classify order bs) ->
  members_of g <> [] /\ forall b, In b (members_of g) -> In b bs /\ classify b = name g.
Proof.
  intros Hg.
  apply (Permutation_in _ (Permutation_sym (sorter_perm G mk name classify order bs))) in Hg.
  apply in_map_iff in Hg as [[k l] [<- Hin]]; simpl; rewrite members_mk, name_mk.
  pose proof (partition_spec classify bs) as (_ & Hl & Hk).
  rewrite (Hl _ _ Hin).
  assert (Hkey : In k (map fst (partition classify bs)))
    by (apply (in_map fst) in Hin; exact Hin).
  apply Hk in Hkey as [b [Hb Hc]].
  split.
  - intros Hnil.
    assert (Hm : In b (members classify bs k))
      by (apply filter_In; split; auto; apply jsstr_eqb_spec; auto).
    rewrite Hnil in Hm; contradiction.
  - intros b' Hb'; apply filter_In in Hb' as [Hb' E]; apply jsstr_eqb_spec in E; auto.
Qed.

Lemma sorter_names_in (bs : list Binding) (x : jsstring) :
  In x (map name (sorter G mk name classify order bs))
  <-> exists b, In b bs /\ classify b = x.
Proof.
  pose proof (partition_spec classify bs) as (_ & _ & Hk).
  rewrite <- Hk.
  pose proof (Permutation_map name (sorter_perm G mk name classify order bs)) as Hp.
  rewrite map_map in Hp; erewrite map_ext in Hp by (intros; apply name_mk).
  split; intros H.
  - exact (Permutation_in _ (Permutation_sym Hp) H).
  - exact (Permutation_in _ Hp H).
Qed.

Lemma sorter_names_canonical (bs1 bs2 : list Binding) :
  (forall g, (exists b, In b bs1 /\ classify b = g) <-> (exists b, In b bs2 /\ classify b = g)) ->
  map name (sorter G mk name classify order bs1) = map name (sorter G mk name classify order bs2).
Proof.
  intros Hs.
  apply (StronglySorted_unique (before order)).
  - apply before_irrefl.
  - apply before_trans.
  - apply StronglySorted_map, (sorter_sorted G mk name name_mk).
  - apply StronglySorted_map, (sorter_sorted G mk name name_mk).
  - intros x; rewrite !sorter_names_in; apply Hs.
Qed.

Lemma sorter_empty_order_alphabetical (bs : list Binding) :
  StronglySorted (fun g1 g2 => js_lt (name g1) (name g2) = true)
    (sorter G mk name classify [] bs).
Proof.
  eapply StronglySorted_weaken; [|apply (sorter_sorted G mk name name_mk classify [])].
  unfold before; simpl; intros a b [(_ & _ & H)|[(_ & H)|(H & _)]]; auto; congruence.
Qed.

End SorterMore.

(** X1.  [setGroupsByOrder(null)] (or [undefined]) restores the priority
    list [['server']]; any array, even an empty one, replaces the list as
    given; the parallel setting is kept.  After [setGroupsByOrder([])] the
    groups are ordered purely alphabetically by name. *)
Theorem setGroupsByOrder_spec (o : LifeCycleObserverOptions) :
  setGroupsByOrder o None = mkLifeCycleObserverOptions [s "server"] (parallel o)
  /\ (forall l, setGroupsByOrder o (Some l) = mkLifeCycleObserverOptions l (parallel o))
  /\ (forall LCOG bs,
        StronglySorted (fun g1 g2 => js_lt (group g1) (group g2) = true)
          (sortObserverBindingsByGroup LCOG (setGroupsByOrder o (Some [])) bs)).
Proof.
  split; [reflexivity|split; [reflexivity|]].
  intros LCOG bs; rewrite sortObserverBindingsByGroup_sorter.
  apply (sorter_empty_order_alphabetical _ mkGroup group (fun _ _ => eq_refl)).
Qed.

(** X2.  [setPhasesByOrder(null)] (or [undefined]) resets the phase order
    to [[]], after which the phases are ordered purely alphabetically by
    name; any array replaces the order as given; the parallel setting is
    kept. *)
Theorem setPhasesByOrder_spec (o : MiddlewareOptions) :
  setPhasesByOrder o None = mkMiddlewareOptions [] (mw_parallel o)
  /\ (forall l, setPhasesByOrder o (Some l) = mkMiddlewareOptions l (mw_parallel o))
  /\ (forall bs,
        StronglySorted (fun p1 p2 => js_lt (phase p1) (phase p2) = true)
          (sortMiddlewareBindingsByPhase (setPhasesByOrder o None) bs)).
Proof.
  split; [reflexivity|split; [reflexivity|]].
  intros bs; rewrite sortMiddlewareBindingsByPhase_sorter.
  apply (sorter_empty_order_alphabetical _ mkPhase phase (fun _ _ => eq_refl)).
Qed.

(** X3.  Every group returned by either sorter has at least one member,
    and each member is an input handle classified into that group.  So a
    name of the priority list that no handle falls into never yields a
    group. *)
Theorem groups_nonempty :
  (forall (LCOG : jsstring) (o : LifeCycleObserverOptions) (bs : list Binding) g,
     In g (sortObserverBindingsByGroup LCOG o bs) ->
     bindings g <> []
     /\ forall b, In b (bindings g) -> In b bs /\ getObserverGroup LCOG o b = group g)
  /\ (forall (o : MiddlewareOptions) (bs : list Binding) p,
     In p (sortMiddlewareBindingsByPhase o bs) ->
     phase_bindings p <> []
     /\ forall b, In b (phase_bindings p) -> In b bs /\ getMiddlewarePhase b = phase p).
Proof.
  split; intros.
  - rewrite sortObserverBindingsByGroup_sorter in *.
    apply (sorter_nonempty _ mkGroup group bindings (fun _ _ => eq_refl) (fun _ _ => eq_refl)
             _ (groupsByOrder o) bs); auto.
  - rewrite sortMiddlewareBindingsByPhase_sorter in *.
    apply (sorter_nonempty _ mkPhase phase phase_bindings (fun _ _ => eq_refl) (fun _ _ => eq_refl)
             _ (phasesByOrder o) bs); auto.
Qed.

(** X4.  The order of the groups does not depend on the order in which
    the handles are registered: two handle lists that fall into the same
    set of group (phase) names give the same sequence of group (phase)
    names. *)
Theorem group_order_canonical :
  (forall (LCOG : jsstring) (o : LifeCycleObserverOptions) (bs1 bs2 : list Binding),
     (forall g, (exists b, In b bs1 /\ getObserverGroup LCOG o b = g)
                <-> (exists b, In b bs2 /\ getObserverGroup LCOG o b = g)) ->
     map group (sortObserverBindingsByGroup LCOG o bs1)
     = map group (sortObserverBindingsByGroup LCOG o bs2))
  /\ (forall (o : MiddlewareOptions) (bs1 bs2 : list Binding),
     (forall g, (exists b, In b bs1 /\ getMiddlewarePhase b = g)
                <-> (exists b, In b bs2 /\ getMiddlewarePhase b = g)) ->
     map phase (sortMiddlewareBindingsByPhase o bs1)
     = map phase (sortMiddlewareBindingsByPhase o bs2)).
Proof.
  split; intros.
  - rewrite !sortObserverBindingsByGroup_sorter.
    apply (sorter_names_canonical _ mkGroup group (fun _ _ => eq_refl)); auto.
  - rewrite !sortMiddlewareBindingsByPhase_sorter.
    apply (sorter_names_canonical _ mkPhase phase (fun _ _ => eq_refl)); auto.
Qed.


(** *** Notification: failures, timing and members *)

Lemma notify_sequential_fail (env : Env) (e : LifeCycleEvent) (pre post : list Binding)
  (b : Binding) (t d : nat) (x : Error) :
  Forall (member_ok env e) pre -> notifyObserver env e b = Rejected d x ->
  g_result (notify_sequential env e (pre ++ b :: post) t) = Err x
  /\ length (g_settles (notify_sequential env e (pre ++ b :: post) t)) = S (length pre)
  /\ g_end (notify_sequential env e (pre ++ b :: post) t)
     = (t + fold_right plus 0 (map (fun b => duration (notifyObserver env e b)) pre) + d)%nat.
Proof.
  revert t; induction pre as [|b0 pre IH]; intros t Hpre Hb; simpl.
  - rewrite Hb; simpl; repeat split; lia.
  - inversion Hpre as [|? ? [d0 Hd0] Hpre']; subst.
    rewrite Hd0; simpl.
    destruct (IH (t + d0)%nat Hpre' Hb) as (H1 & H2 & H3).
    repeat split; auto; rewrite H3; lia.
Qed.

Lemma notify_sequential_time (env : Env) (e : LifeCycleEvent) (bs : list Binding) (t : nat) :
  Forall (member_ok env e) bs ->
  g_end (notify_sequential env e bs t)
  = (t + fold_right plus 0 (map (fun b => duration (notifyObserver env e b)) bs))%nat.
Proof.
  revert t; induction bs as [|b bs IH]; intros t H; simpl; [lia|].
  inversion H as [|? ? [d Hd] H']; subst.
  rewrite Hd; simpl; rewrite IH by auto; lia.
Qed.

(** Where the calls of [notifyObserverGroup] made by [notifyGroups] go. *)
Lemma notifyGroups_In (env : Env) (o : LifeCycleObserverOptions)
  (evs : list LifeCycleEvent) (gs : list LifeCycleObserverGroup)
  (t t' : nat) (r : Result) (l : list Notification) :
  notifyGroups env o evs gs t = (r, t', l) ->
  forall n, In n l -> In (n_event n) evs /\ In (n_group n) gs.
Proof.
  intros H n Hn; apply In_visits.
  destruct (notifyGroups_spec env o _ _ _ _ _ _ H) as (_ & Hok & Herr).
  assert (Hp : In (n_event n, n_group n) (proj l))
    by (unfold proj; apply (in_map (fun n => (n_event n, n_group n))); auto).
  destruct r as [|x].
  - rewrite (proj1 (Hok eq_refl)) in Hp; auto.
  - rewrite (proj1 (Herr x eq_refl)) in Hp.
    rewrite <- (firstn_skipn (length l) (visits evs gs)); apply in_or_app; auto.
Qed.

Lemma groups_for_visits3 (e e1 e2 e3 : LifeCycleEvent) (gs : list LifeCycleObserverGroup) :
  In e [e1; e2; e3] -> NoDup [e1; e2; e3] ->
  (forall a b, event_eqb a b = true <-> a = b) ->
  groups_for e (visits [e1; e2; e3] gs) = gs.
Proof.
  intros He Hd Heq.
  unfold visits; simpl; rewrite !app_nil_r, !groups_for_app, !groups_for_map.
  inversion Hd as [|? ? N1 Hd1]; inversion Hd1 as [|? ? N2 _]; subst.
  assert (F : forall a b, a <> b -> event_eqb a b = false)
    by (intros a b Hab; destruct (event_eqb a b) eqn:E; auto; apply Heq in E; congruence).
  assert (T : forall a, event_eqb a a = true) by (intros; apply Heq; auto).
  simpl in N1, N2.
  destruct He as [<-|[<-|[<-|[]]]];
    rewrite T, !F by (intro; subst; tauto); simpl; rewrite ?app_nil_r; reflexivity.
Qed.

Lemma event_eqb_spec (a b : LifeCycleEvent) : event_eqb a b = true <-> a = b.
Proof. destruct a, b; simpl; split; congruence. Qed.

(** X5.  In sequential mode, a failing member stops its group: if the
    members before [b] succeed and [b] fails, the group fails with [b]'s
    error, the members after [b] are never notified (only the first
    [length pre + 1] notifications settle), and the group settles once the
    members before [b] and [b] itself have run one after the other. *)
Theorem sequential_group_stops_at_failure (env : Env) (o : LifeCycleObserverOptions)
  (g : LifeCycleObserverGroup) (e : LifeCycleEvent) (t : nat)
  (pre post : list Binding) (b : Binding) (d : nat) (x : Error) :
  parallel o <> Some true ->
  bindings g = pre ++ b :: post ->
  Forall (member_ok env e) pre ->
  notifyObserver env e b = Rejected d x ->
  g_result (notifyObserverGroup env o g e t) = Err x
  /\ length (g_settles (notifyObserverGroup env o g e t)) = S (length pre)
  /\ g_end (notifyObserverGroup env o g e t)
     = (t + fold_right plus 0 (map (fun b => duration (notifyObserver env e b)) pre) + d)%nat.
Proof.
  intros Hp Hg Hpre Hb.
  assert (E : notifyObserverGroup env o g e t = notify_sequential env e (bindings g) t)
    by (unfold notifyObserverGroup; destruct (parallel o) as [[|]|]; congruence).
  rewrite E, Hg; apply notify_sequential_fail; auto.
Qed.

(** X6.  When every member of a group succeeds, the group notification
    succeeds; in sequential mode it takes the sum of the members' times,
    in parallel mode the longest of them. *)
Theorem group_success_time (env : Env) (o : LifeCycleObserverOptions)
  (g : LifeCycleObserverGroup) (e : LifeCycleEvent) (t : nat) :
  Forall (member_ok env e) (bindings g) ->
  g_result (notifyObserverGroup env o g e t) = Ok
  /\ (parallel o <> Some true ->
      g_end (notifyObserverGroup env o g e t)
      = (t + fold_right plus 0 (map (fun b => duration (notifyObserver env e b)) (bindings g)))%nat)
  /\ (parallel o = Some true ->
      g_end (notifyObserverGroup env o g e t)
      = (t + fold_right Nat.max 0 (map (fun b => duration (notifyObserver env e b)) (bindings g)))%nat).
Proof.
  intros H.
  split; [apply group_ok_iff; auto|split].
  - intros Hp.
    assert (E : notifyObserverGroup env o g e t = notify_sequential env e (bindings g) t)
      by (unfold notifyObserverGroup; destruct (parallel o) as [[|]|]; congruence).
    rewrite E; apply notify_sequential_time; auto.
  - intros Hp; unfold notifyObserverGroup; rewrite Hp.
    unfold notify_parallel, promise_all.
    assert (F : first_rejection (map (notifyObserver env e) (bindings g)) = None)
      by (apply first_rejection_None; rewrite Forall_map; exact H).
    rewrite F, map_map; reflexivity.
Qed.

(** X7.  An observer that does not implement the sub-event's method is
    only resolved: its notification is the resolution of its binding.  So a
    group none of whose observers implements the method succeeds exactly
    when every member resolves. *)
Theorem missing_method_only_resolves (env : Env) (o : LifeCycleObserverOptions)
  (g : LifeCycleObserverGroup) (e : LifeCycleEvent) (t : nat) :
  (forall b, In b (bindings g) -> method env b e = None) ->
  (forall b, In b (bindings g) -> notifyObserver env e b = resolve env b)
  /\ (g_result (notifyObserverGroup env o g e t) = Ok
      <-> forall b, In b (bindings g) -> exists d, resolve env b = Fulfilled d).
Proof.
  intros Hm.
  assert (Hn : forall b, In b (bindings g) -> notifyObserver env e b = resolve env b).
  { intros b Hb; unfold notifyObserver, invokeObserver; rewrite Hm by auto.
    destruct (resolve env b); rewrite ?Nat.add_0_r; reflexivity. }
  split; auto.
  rewrite group_ok_iff, Forall_forall; unfold member_ok.
  split; intros H b Hb.
  - rewrite <- Hn by auto; auto.
  - rewrite Hn by auto; auto.
Qed.

(** X8.  When the context holds no life cycle observer binding (no
    constant or singleton binding with the observer tag), [start()] and
    [stop()] succeed at once and notify no group. *)
Theorem no_observers_nothing_notified (LCO LCOG : jsstring) (env : Env)
  (o : LifeCycleObserverOptions) (ctx : list Binding) (t : nat) :
  findObserverBindings LCO ctx = [] ->
  start LCO LCOG env o ctx t = (Ok, t, []) /\ stop LCO LCOG env o ctx t = (Ok, t, []).
Proof.
  intros H; unfold start, stop, getObserverGroupsByOrder; rewrite H.
  split; reflexivity.
Qed.

(** X9.  [start()] and [stop()], whether they succeed or fail, only ever
    notify bindings of the context that are constants or singletons and
    carry the life cycle observer tag. *)
Theorem notified_are_observers (LCO LCOG : jsstring) (env : Env)
  (o : LifeCycleObserverOptions) (ctx : list Binding) (t t' : nat) (r : Result)
  (l : list Notification) :
  start LCO LCOG env o ctx t = (r, t', l) \/ stop LCO LCOG env o ctx t = (r, t', l) ->
  forall n b, In n l -> In b (bindings (n_group n)) ->
    In b ctx /\ (btype b = CONSTANT \/ scope b = SINGLETON)
    /\ tag_get (tagMap b) LCO <> None.
Proof.
  intros H n b Hn Hb.
  assert (Hg : In (n_group n) (getObserverGroupsByOrder LCO LCOG o ctx)).
  { destruct H as [H|H].
    - apply (notifyGroups_In _ _ _ _ _ _ _ _ H n Hn).
    - apply in_rev, (notifyGroups_In _ _ _ _ _ _ _ _ H n Hn). }
  unfold getObserverGroupsByOrder in Hg; rewrite sortObserverBindingsByGroup_sorter in Hg.
  destruct (sorter_nonempty _ mkGroup group bindings (fun _ _ => eq_refl) (fun _ _ => eq_refl)
              _ _ _ _ Hg) as [_ Hm].
  destruct (Hm b Hb) as [Hf _].
  unfold findObserverBindings in Hf; apply filter_In in Hf as [Hc Hp].
  apply andb_true_iff in Hp as [Hp Ht]; apply orb_true_iff in Hp.
  split; [exact Hc|split].
  - destruct Hp as [Hp|Hp]; [left|right];
      [destruct (btype b)|destruct (scope b)]; auto; discriminate.
  - destruct (tag_get (tagMap b) LCO); discriminate.
Qed.

(** X10.  When [start()] (resp. [stop()]) succeeds, for each of its three
    sub-events the members of the groups notified, taken together, are
    exactly the observer bindings of the context, each once: every
    observer is notified of every sub-event exactly once. *)
Theorem each_observer_notified_once (LCO LCOG : jsstring) (env : Env)
  (o : LifeCycleObserverOptions) (ctx : list Binding) (t t' : nat)
  (l : list Notification) :
  (start LCO LCOG env o ctx t = (Ok, t', l) ->
     forall e, In e startEvents ->
       Permutation (concat (map bindings (groups_for e (proj l)))) (findObserverBindings LCO ctx))
  /\ (stop LCO LCOG env o ctx t = (Ok, t', l) ->
     forall e, In e stopEvents ->
       Permutation (concat (map bindings (groups_for e (proj l)))) (findObserverBindings LCO ctx)).
Proof.
  assert (Hc : Permutation (concat (map bindings (getObserverGroupsByOrder LCO LCOG o ctx)))
                 (findObserverBindings LCO ctx)).
  { unfold getObserverGroupsByOrder; rewrite sortObserverBindingsByGroup_sorter.
    apply (sorter_concat _ mkGroup group bindings (fun _ _ => eq_refl)). }
  split; intros H e He.
  - destruct (notifyGroups_spec env o _ _ _ _ _ _ H) as (_ & Hok & _).
    rewrite (proj1 (Hok eq_refl)).
    unfold startEvents in *.
    rewrite groups_for_visits3;
      [exact Hc|exact He|repeat constructor; simpl; intuition discriminate|apply event_eqb_spec].
  - destruct (notifyGroups_spec env o _ _ _ _ _ _ H) as (_ & Hok & _).
    rewrite (proj1 (Hok eq_refl)).
    unfold stopEvents in *.
    rewrite groups_for_visits3;
      [|exact He|repeat constructor; simpl; intuition discriminate|apply event_eqb_spec].
    eapply perm_trans; [|exact Hc].
    apply Permutation_concat_perm, Permutation_map, Permutation_sym, Permutation_rev.
Qed.

(** *** Building the router *)

(** X11.  When [createExpressRouter] succeeds, the root router holds one
    phase router per phase, and the phase routers together mount every
    binding of the view exactly once (as [mount_of] describes); an empty
    view gives an empty root router. *)
Theorem router_mounts_each_binding_once (mw_value : Binding -> option Handler)
  (o : MiddlewareOptions) (view : list Binding) (r : Router) :
  createExpressRouter mw_value o view = Some r ->
  length r = length (sortMiddlewareBindingsByPhase o view)
  /\ Permutation (concat r) (map (mount_of mw_value) view)
  /\ (view = [] -> r = []).
Proof.
  rewrite createExpressRouter_eq.
  destruct (view_values mw_value view); intros H; [|discriminate].
  injection H as <-.
  split; [apply length_map|split].
  - assert (E : forall ps : list MiddlewarePhase,
              concat (map (fun p => map (mount_of mw_value) (phase_bindings p)) ps)
              = map (mount_of mw_value) (concat (map phase_bindings ps)))
      by (induction ps; simpl; rewrite ?map_app; congruence).
    rewrite E; apply Permutation_map.
    rewrite sortMiddlewareBindingsByPhase_sorter.
    apply (sorter_concat _ mkPhase phase phase_bindings (fun _ _ => eq_refl)).
  - intros ->; reflexivity.
Qed.

(** ** Witnesses *)

(** [stop_reverses_start] at the handles A (server), B (no group) and
    C (db), with priority list [['db', 'server']]. *)
Lemma stop_reverses_start_witness :
  demo_start = (Ok, snd (fst demo_start), snd demo_start)
  /\ demo_stop = (Ok, snd (fst demo_stop), snd demo_stop)
  /\ proj (snd demo_start) = firstn (length (snd demo_start)) (visits startEvents demo_groups)
  /\ proj (snd demo_stop) = firstn (length (snd demo_stop)) (visits stopEvents (rev demo_groups))
  /\ (Ok = Ok -> proj (snd demo_start) = visits startEvents demo_groups)
  /\ (Ok = Ok -> proj (snd demo_stop) = visits stopEvents (rev demo_groups))
  /\ (Ok = Ok -> Ok = Ok -> forall k, (k < 3)%nat ->
        groups_for (nth k stopEvents ev_stop) (proj (snd demo_stop))
        = rev (groups_for (nth k startEvents ev_start) (proj (snd demo_start)))).
Proof.
  assert (H1 : demo_start = (Ok, snd (fst demo_start), snd demo_start))
    by (vm_compute; reflexivity).
  assert (H2 : demo_stop = (Ok, snd (fst demo_stop), snd demo_stop))
    by (vm_compute; reflexivity).
  split; [exact H1|split; [exact H2|]].
  exact (stop_reverses_start LCO LCO_GROUP env_ok env_ok opts_db_server ctx_demo
           0 0 _ _ _ _ _ _ H1 H2).
Defined.

(** [notification_event_major] on the handles A, B and C: with observers
    whose [stop] method rejects, [start()] completes and [stop()] fails,
    and the start part applies; with [env_ok], [stop()] completes and the
    stop part applies. *)
Lemma notification_event_major_witness :
  start LCO LCO_GROUP env_stop_fails opts_db_server ctx_demo 0
  = (Ok, snd (fst halting_start), snd halting_start)
  /\ fst (fst (stop LCO LCO_GROUP env_stop_fails opts_db_server ctx_demo 0)) = Err (s "halt")
  /\ proj (snd halting_start)
     = map (fun g => (ev_preStart, g)) demo_groups ++ map (fun g => (ev_start, g)) demo_groups
       ++ map (fun g => (ev_postStart, g)) demo_groups
  /\ chain 0 (snd halting_start) (snd (fst halting_start))
  /\ demo_stop = (Ok, snd (fst demo_stop), snd demo_stop)
  /\ proj (snd demo_stop)
     = map (fun g => (ev_preStop, g)) (rev demo_groups)
       ++ map (fun g => (ev_stop, g)) (rev demo_groups)
       ++ map (fun g => (ev_postStop, g)) (rev demo_groups)
  /\ chain 0 (snd demo_stop) (snd (fst demo_stop)).
Proof.
  assert (H1 : start LCO LCO_GROUP env_stop_fails opts_db_server ctx_demo 0
               = (Ok, snd (fst halting_start), snd halting_start))
    by (vm_compute; reflexivity).
  assert (H2 : demo_stop = (Ok, snd (fst demo_stop), snd demo_stop))
    by (vm_compute; reflexivity).
  destruct (proj1 (notification_event_major LCO LCO_GROUP env_stop_fails opts_db_server
                     ctx_demo 0 _ 0 0 _ []) H1) as [P1 C1].
  destruct (proj2 (notification_event_major LCO LCO_GROUP env_ok opts_db_server ctx_demo
                     0 0 0 _ [] _) H2) as [P2 C2].
  split; [exact H1|split; [vm_compute; reflexivity|]].
  split; [exact P1|split; [exact C1|split; [exact H2|split; [exact P2|exact C2]]]].
Defined.

(** [parallel_group_fail_fast] on the group [server] of A and D, where A
    fails. *)
Lemma parallel_group_fail_fast_witness :
  parallel opts_server = Some true
  /\ (let r := notifyObserverGroup env_A_fails opts_server group_AD ev_preStart 0 in
      let rs := map (notifyObserver env_A_fails ev_preStart) (bindings group_AD) in
      g_settles r = map (fun x => 0 + duration x)%nat rs
      /\ (g_result r = Ok ->
            Forall (member_ok env_A_fails ev_preStart) (bindings group_AD)
            /\ Forall (fun st => st <= g_end r)%nat (g_settles r))
      /\ (forall x, g_result r = Err x ->
            exists b d, In b (bindings group_AD)
              /\ notifyObserver env_A_fails ev_preStart b = Rejected d x
              /\ g_end r = (0 + d)%nat
              /\ forall b' d' x', In b' (bindings group_AD) ->
                   notifyObserver env_A_fails ev_preStart b' = Rejected d' x' -> (d <= d')%nat)
      /\ ((exists b d x, In b (bindings group_AD)
             /\ notifyObserver env_A_fails ev_preStart b = Rejected d x) ->
            exists x, g_result r = Err x)).
Proof.
  split; [reflexivity|].
  exact (parallel_group_fail_fast env_A_fails opts_server group_AD ev_preStart 0 eq_refl).
Defined.

(** [sequential_group_stops_at_failure] in sequential mode on a group of
    D, A and B, where A fails after 1: D runs (5), A fails, the group fails
    at 6 with two settled notifications, and B, after A, is never
    notified. *)
Lemma sequential_group_stops_at_failure_witness :
  parallel opts_sequential <> Some true
  /\ bindings group_DAB = [D_server] ++ A_server :: [B_plain]
  /\ Forall (member_ok env_A_fails ev_start) [D_server]
  /\ notifyObserver env_A_fails ev_start A_server = Rejected 1%nat (s "boom")
  /\ g_result (notifyObserverGroup env_A_fails opts_sequential group_DAB ev_start 0) = Err (s "boom")
  /\ length (g_settles (notifyObserverGroup env_A_fails opts_sequential group_DAB ev_start 0))
     = S (length [D_server])
  /\ g_end (notifyObserverGroup env_A_fails opts_sequential group_DAB ev_start 0)
     = (0 + fold_right plus 0
              (map (fun b => duration (notifyObserver env_A_fails ev_start b)) [D_server])
        + 1)%nat.
Proof.
  assert (H1 : parallel opts_sequential <> Some true) by discriminate.
  assert (H2 : bindings group_DAB = [D_server] ++ A_server :: [B_plain]) by reflexivity.
  assert (H3 : Forall (member_ok env_A_fails ev_start) [D_server])
    by (constructor; [exists 5%nat; vm_compute; reflexivity|constructor]).
  assert (H4 : notifyObserver env_A_fails ev_start A_server = Rejected 1%nat (s "boom"))
    by (vm_compute; reflexivity).
  split; [exact H1|split; [exact H2|split; [exact H3|split; [exact H4|]]]].
  exact (sequential_group_stops_at_failure env_A_fails opts_sequential group_DAB ev_start 0
           [D_server] [B_plain] A_server 1%nat (s "boom") H1 H2 H3 H4).
Defined.

(** [group_success_time] on the group [server] of A and D, where every
    member succeeds after 3. *)
Lemma group_success_time_witness :
  Forall (member_ok env_ok ev_start) (bindings group_AD)
  /\ g_result (notifyObserverGroup env_ok opts_server group_AD ev_start 0) = Ok
  /\ (parallel opts_server <> Some true ->
      g_end (notifyObserverGroup env_ok opts_server group_AD ev_start 0)
      = (0 + fold_right plus 0
               (map (fun b => duration (notifyObserver env_ok ev_start b)) (bindings group_AD)))%nat)
  /\ (parallel opts_server = Some true ->
      g_end (notifyObserverGroup env_ok opts_server group_AD ev_start 0)
      = (0 + fold_right Nat.max 0
               (map (fun b => duration (notifyObserver env_ok ev_start b)) (bindings group_AD)))%nat).
Proof.
  assert (H : Forall (member_ok env_ok ev_start) (bindings group_AD))
    by (repeat constructor; exists 3%nat; vm_compute; reflexivity).
  split; [exact H|].
  exact (group_success_time env_ok opts_server group_AD ev_start 0 H).
Defined.

(** [missing_method_only_resolves] on the group [server] of A and D, with
    observers that implement no method. *)
Lemma missing_method_only_resolves_witness :
  (forall b, In b (bindings group_AD) -> method env_no_methods b ev_start = None)
  /\ (forall b, In b (bindings group_AD) ->
        notifyObserver env_no_methods ev_start b = resolve env_no_methods b)
  /\ (g_result (notifyObserverGroup env_no_methods opts_server group_AD ev_start 0) = Ok
      <-> forall b, In b (bindings group_AD) -> exists d, resolve env_no_methods b = Fulfilled d).
Proof.
  assert (H : forall b, In b (bindings group_AD) -> method env_no_methods b ev_start = None)
    by (intros; reflexivity).
  split; [exact H|].
  exact (missing_method_only_resolves env_no_methods opts_server group_AD ev_start 0 H).
Defined.

(** [no_observers_nothing_notified] on a context whose only binding is a
    transient class binding carrying the observer tag. *)
Lemma no_observers_nothing_notified_witness :
  findObserverBindings LCO ctx_transient = []
  /\ start LCO LCO_GROUP env_ok opts_server ctx_transient 0 = (Ok, 0%nat, [])
  /\ stop LCO LCO_GROUP env_ok opts_server ctx_transient 0 = (Ok, 0%nat, []).
Proof.
  assert (H : findObserverBindings LCO ctx_transient = []) by reflexivity.
  split; [exact H|].
  exact (no_observers_nothing_notified LCO LCO_GROUP env_ok opts_server ctx_transient 0 H).
Defined.

(** [notified_are_observers] on the run of [start()] over A, B and C. *)
Lemma notified_are_observers_witness :
  (start LCO LCO_GROUP env_ok opts_db_server ctx_demo 0
   = (Ok, snd (fst demo_start), snd demo_start)
   \/ stop LCO LCO_GROUP env_ok opts_db_server ctx_demo 0
      = (Ok, snd (fst demo_start), snd demo_start))
  /\ (forall n b, In n (snd demo_start) -> In b (bindings (n_group n)) ->
        In b ctx_demo /\ (btype b = CONSTANT \/ scope b = SINGLETON)
        /\ tag_get (tagMap b) LCO <> None).
Proof.
  assert (H : start LCO LCO_GROUP env_ok opts_db_server ctx_demo 0
              = (Ok, snd (fst demo_start), snd demo_start)
              \/ stop LCO LCO_GROUP env_ok opts_db_server ctx_demo 0
                 = (Ok, snd (fst demo_start), snd demo_start))
    by (left; vm_compute; reflexivity).
  split; [exact H|].
  exact (notified_are_observers LCO LCO_GROUP env_ok opts_db_server ctx_demo 0 _ _ _ H).
Defined.

(** [router_mounts_each_binding_once] on a view of [M] (no phase, no path)
    and [N] (phase [route], path [/api]). *)
Lemma router_mounts_each_binding_once_witness :
  createExpressRouter mw_value_demo mw_opts_auth mw_view_demo
  = Some [[Use (Some 1%nat)]; [UsePath (s "/api") (Some 2%nat)]]
  /\ length [[Use (Some 1%nat)]; [UsePath (s "/api") (Some 2%nat)]]
     = length (sortMiddlewareBindingsByPhase mw_opts_auth mw_view_demo)
  /\ Permutation (concat [[Use (Some 1%nat)]; [UsePath (s "/api") (Some 2%nat)]])
       (map (mount_of mw_value_demo) mw_view_demo)
  /\ (mw_view_demo = [] -> [[Use (Some 1%nat)]; [UsePath (s "/api") (Some 2%nat)]] = []).
Proof.
  assert (H : createExpressRouter mw_value_demo mw_opts_auth mw_view_demo
              = Some [[Use (Some 1%nat)]; [UsePath (s "/api") (Some 2%nat)]])
    by (vm_compute; reflexivity).
  split; [exact H|].
  exact (router_mounts_each_binding_once mw_value_demo mw_opts_auth mw_view_demo _ H).
Defined.
